(** * IntlMessageFormat core: configuration merger, formatter cache, facade

    A shallow embedding of [packages/intl-pluralrules/scripts/cldr.ts]
    (the part below the licence header: [mergeConfig], [mergeConfigs],
    [createFastMemoizeCache], [createDefaultFormatters] and the class
    [IntlMessageFormat]).

    JavaScript objects used as string-keyed records are finite maps
    [gmap string _]; structural (deep) equality of such objects is Leibniz
    equality of the maps.  Where object identity matters (the merger returning
    its argument, instances sharing the static default formats) objects
    live in a heap and are named by locations. *)

From stdpp Require Import gmap strings list fin_maps pretty.

#[local] Set Warnings "-clear-no-such-hyp,-register-all".

Open Scope string_scope.
Open Scope list_scope.

(** ** Values of option fields

    The leaves of a configuration are the option values handed to the
    [Intl] constructors: strings such as ['numeric'], numbers, booleans. *)

Inductive OptionValue :=
  | OStr (s : string)
  | ONum (n : Z)
  | OBool (b : bool).

#[global] Instance OptionValue_eq_dec : EqDecision OptionValue.
Proof. solve_decision. Defined.

#[global] Instance OptionValue_countable : Countable OptionValue.
Proof.
  apply (inj_countable'
    (λ v, match v with
          | OStr s => inl s
          | ONum n => inr (inl n)
          | OBool b => inr (inr b)
          end)
    (λ x, match x with
          | inl s => OStr s
          | inr (inl n) => ONum n
          | inr (inr b) => OBool b
          end)).
  by intros [].
Defined.

(** An options record ([Intl.NumberFormatOptions] ...), a category
    ([Record<string, object>]: preset name to options record) and a
    [Formats] object (category name to category). *)
Abbreviation OptionsRecord := (gmap string OptionValue).
Abbreviation Category := (gmap string OptionsRecord).
Abbreviation Formats := (gmap string Category).

Module Js.

(** [{...a, ...b}]: the own properties of [a], then those of [b]; a key of
    both gets [b]'s value.  stdpp's union is left-biased. *)
Definition spread {V} (a b : gmap string V) : gmap string V := b ∪ a.

(** [{...a}]: a new object with the own properties of [a]; as a value it
    is [a]. *)
Definition copy {V} (a : gmap string V) : gmap string V := a.

(** [Object.keys(o)].  The order is the one [map_to_list] enumerates the
    map in; the functions below only assign [all[k]] for each key, so the
    order has no effect on the resulting record. *)
Definition keys {V} (o : gmap string V) : list string := (map_to_list o).*1.

(** [o || {}], and the spread of a possibly undefined object. *)
Definition or_empty {V} (o : option (gmap string V)) : gmap string V :=
  default ∅ o.

(** Truthiness of a string: only [''] is falsy. *)
Definition truthy_string (s : string) : bool := negb (String.eqb s "").

End Js.

(** ** Config merger, on values

    [mergeConfig] and [mergeConfigs] read their arguments and build new
    objects; they never write to an object they were given.  Their result
    as a value is a function of the values of the arguments. *)

(** [mergeConfig(c1, c2)], lines 55-70. *)
Definition mergeConfig (c1 : Category) (c2 : option Category) : Category :=
  match c2 with
  | None => c1
  | Some c2 =>
      Js.spread (Js.spread (Js.or_empty (Some c1)) (Js.or_empty (Some c2)))
        (foldl (λ all k,
                  <[k := Js.spread (Js.or_empty (c1 !! k)) (Js.or_empty (c2 !! k))]> all)
               ∅ (Js.keys c1))
  end.

(** [mergeConfigs(defaultConfig, configs)], lines 72-87. *)
Definition mergeConfigs (defaultConfig : Formats) (configs : option Formats) : Formats :=
  match configs with
  | None => defaultConfig
  | Some configs =>
      foldl (λ all k,
               <[k := mergeConfig (Js.or_empty (defaultConfig !! k)) (configs !! k)]> all)
            (Js.copy defaultConfig) (Js.keys defaultConfig)
  end.

(** The initial value of the static [IntlMessageFormat.formats],
    lines 250-314. *)
Definition opts (l : list (string * string)) : OptionsRecord :=
  list_to_map (prod_map id OStr <$> l).

Definition default_formats : Formats :=
  list_to_map
    [ ("number", list_to_map
        [ ("currency", opts [("style", "currency")]);
          ("percent", opts [("style", "percent")]) ]);
      ("date", list_to_map
        [ ("short", opts [("month", "numeric"); ("day", "numeric"); ("year", "2-digit")]);
          ("medium", opts [("month", "short"); ("day", "numeric"); ("year", "numeric")]);
          ("long", opts [("month", "long"); ("day", "numeric"); ("year", "numeric")]);
          ("full", opts [("weekday", "long"); ("month", "long"); ("day", "numeric");
                         ("year", "numeric")]) ]);
      ("time", list_to_map
        [ ("short", opts [("hour", "numeric"); ("minute", "numeric")]);
          ("medium", opts [("hour", "numeric"); ("minute", "numeric"); ("second", "numeric")]);
          ("long", opts [("hour", "numeric"); ("minute", "numeric"); ("second", "numeric");
                         ("timeZoneName", "short")]);
          ("full", opts [("hour", "numeric"); ("minute", "numeric"); ("second", "numeric");
                         ("timeZoneName", "short")]) ]) ].

(** ** Config merger, on objects

    The same two functions with object identity: every object lives at a
    location of a heap, and a field that holds an object holds its location.
    The heap is typed as the TypeScript declarations are: options records
    (the leaves), category objects (preset name to options record) and
    [Formats] objects (category name to category object). *)

Abbreviation loc := positive.

Module Ref.

Record Heap := mkHeap {
  h_options : gmap loc OptionsRecord;
  h_categories : gmap loc (gmap string loc);
  h_formats : gmap loc (gmap string loc);
}.

(** The object a location denotes.  Every reference of a running program
    denotes an object; for a location that is not allocated the empty
    object is read. *)
Definition deref {V} (m : gmap loc (gmap string V)) (l : loc) : gmap string V :=
  Js.or_empty (m !! l).

(** An object literal allocates a new object. *)
Definition alloc {V} (m : gmap loc V) (v : V) : loc * gmap loc V :=
  let l := fresh (dom m) in (l, <[l := v]> m).

(** The options record a field of a category object refers to; the
    spread of an undefined field is the spread of [{}]. *)
Definition record_of (ho : gmap loc OptionsRecord) (field : option loc) : OptionsRecord :=
  Js.or_empty (field ≫= (ho !!.)).

(** The callback of the [reduce] of [mergeConfig], lines 62-68:
    [all[k] = {...c1[k], ...(c2[k] || {})}], a new options record.  The
    accumulator [all] is an object no one else holds; it is kept as a
    value. *)
Definition preset_step (o1 o2 : gmap string loc)
    (acc : gmap string loc * gmap loc OptionsRecord) (k : string)
    : gmap string loc * gmap loc OptionsRecord :=
  let '(all, ho) := acc in
  let '(l, ho') := alloc ho (Js.spread (record_of ho (o1 !! k)) (record_of ho (o2 !! k))) in
  (<[k := l]> all, ho').

Definition merge_presets (o1 o2 : gmap string loc) (ks : list string)
    (ho : gmap loc OptionsRecord) : gmap string loc * gmap loc OptionsRecord :=
  foldl (preset_step o1 o2) (∅, ho) ks.

(** [mergeConfig(c1, c2)], lines 55-70. *)
Definition mergeConfig (c1 : loc) (c2 : option loc) (h : Heap) : loc * Heap :=
  match c2 with
  | None => (c1, h)
  | Some c2 =>
      let o1 := deref (h_categories h) c1 in
      let o2 := deref (h_categories h) c2 in
      let '(all, ho) := merge_presets o1 o2 (Js.keys o1) (h_options h) in
      let '(l, hc) := alloc (h_categories h) (Js.spread (Js.spread o1 o2) all) in
      (l, {| h_options := ho; h_categories := hc; h_formats := h_formats h |})
  end.

(** The callback of the [reduce] of [mergeConfigs], lines 81-84:
    [all[k] = mergeConfig(defaultConfig[k], configs[k])].  [k] is a key
    of [defaultConfig], so [defaultConfig[k]] is defined. *)
Definition category_step (D O : gmap string loc) (acc : gmap string loc * Heap)
    (k : string) : gmap string loc * Heap :=
  let '(all, h) := acc in
  match D !! k with
  | Some c1 => let '(l, h') := mergeConfig c1 (O !! k) h in (<[k := l]> all, h')
  | None => (all, h)
  end.

Definition merge_categories (D O : gmap string loc) (ks : list string)
    (init : gmap string loc) (h : Heap) : gmap string loc * Heap :=
  foldl (category_step D O) (init, h) ks.

(** [mergeConfigs(defaultConfig, configs)], lines 72-87.  The accumulator
    is the new object [{...defaultConfig}], which is the result. *)
Definition mergeConfigs (defaultConfig : loc) (configs : option loc) (h : Heap)
    : loc * Heap :=
  match configs with
  | None => (defaultConfig, h)
  | Some configs =>
      let D := deref (h_formats h) defaultConfig in
      let O := deref (h_formats h) configs in
      let '(all, h1) := merge_categories D O (Js.keys D) (Js.copy D) h in
      let '(l, hf) := alloc (h_formats h1) all in
      (l, {| h_options := h_options h1; h_categories := h_categories h1;
             h_formats := hf |})
  end.

(** The value of an object: what a deep comparison of two objects
    compares. *)
Definition read_options (h : Heap) (l : loc) : OptionsRecord :=
  deref (h_options h) l.

Definition read_category (h : Heap) (l : loc) : Category :=
  read_options h <$> deref (h_categories h) l.

Definition read_formats (h : Heap) (l : loc) : Formats :=
  read_category h <$> deref (h_formats h) l.

(** Assignments to a field of an existing object:
    [F[k] = c] on a [Formats] object, [c[p] = o] on a category object,
    [o[f] = v] on an options record. *)
Definition write_formats (l : loc) (k : string) (c : loc) (h : Heap) : Heap :=
  {| h_options := h_options h; h_categories := h_categories h;
     h_formats := <[l := <[k := c]> (deref (h_formats h) l)]> (h_formats h) |}.

Definition write_category (l : loc) (p : string) (o : loc) (h : Heap) : Heap :=
  {| h_options := h_options h;
     h_categories := <[l := <[p := o]> (deref (h_categories h) l)]> (h_categories h);
     h_formats := h_formats h |}.

Definition write_options (l : loc) (f : string) (v : OptionValue) (h : Heap) : Heap :=
  {| h_options := <[l := <[f := v]> (deref (h_options h) l)]> (h_options h);
     h_categories := h_categories h; h_formats := h_formats h |}.

(** No dangling references: every location stored in a field of an
    allocated object is allocated. *)
Definition closed (h : Heap) : Prop :=
  map_Forall (λ _ c, map_Forall (λ _ o, o ∈ dom (h_options h)) c) (h_categories h)
  ∧ map_Forall (λ _ F, map_Forall (λ _ c, c ∈ dom (h_categories h)) F) (h_formats h).

#[global] Instance closed_dec (h : Heap) : Decision (closed h).
Proof. unfold closed. apply _. Defined.

(** The objects of before a merge that the merged configuration shares
    with its arguments [D] and [O] rather than copies: a category object
    of [D] is shared when [O] lacks the category; an options record is
    shared when it belongs to such a category, or to a preset that only
    the category of [O] has. *)
Definition not_shared_category (D O : gmap string loc) (l : loc) : Prop :=
  map_Forall (λ k c1, O !! k = None → c1 ≠ l) D.

Definition not_shared_record (hc : gmap loc (gmap string loc))
    (D O : gmap string loc) (l : loc) : Prop :=
  map_Forall (λ k c1,
      match O !! k with
      | None => map_Forall (λ _ ro, ro ≠ l) (deref hc c1)
      | Some c2 => map_Forall (λ p ro, deref hc c1 !! p = None → ro ≠ l) (deref hc c2)
      end) D.

#[global] Instance not_shared_category_dec D O l : Decision (not_shared_category D O l).
Proof. unfold not_shared_category. apply _. Defined.

#[global] Instance not_shared_record_dec hc D O l : Decision (not_shared_record hc D O l).
Proof.
  unfold not_shared_record. apply map_Forall_dec. intros k c1.
  destruct (O !! k); apply _.
Defined.

(** A heap that has every object of another, unchanged. *)
Definition extends (h h' : Heap) : Prop :=
  h_options h ⊆ h_options h'
  ∧ h_categories h ⊆ h_categories h'
  ∧ h_formats h ⊆ h_formats h'.

(** Allocation of a whole configuration, leaves first. *)
Definition alloc_category (c : Category) (h : Heap) : loc * Heap :=
  let '(all, ho) :=
    foldl (λ '(all, ho) '(p, o), let '(l, ho') := alloc ho o in (<[p := l]> all, ho'))
          (∅, h_options h) (map_to_list c) in
  let '(l, hc) := alloc (h_categories h) all in
  (l, {| h_options := ho; h_categories := hc; h_formats := h_formats h |}).

Definition alloc_formats (F : Formats) (h : Heap) : loc * Heap :=
  let '(all, h1) :=
    foldl (λ '(all, h) '(k, c), let '(l, h') := alloc_category c h in (<[k := l]> all, h'))
          (∅, h) (map_to_list F) in
  let '(l, hf) := alloc (h_formats h1) all in
  (l, {| h_options := h_options h1; h_categories := h_categories h1; h_formats := hf |}).

Definition empty_heap : Heap :=
  {| h_options := ∅; h_categories := ∅; h_formats := ∅ |}.

End Ref.

(** The object [l] that [mergeConfig(c1, c2)] returned, in the heap [h']
    of some later time, seen from a heap [h] of before the call: its value
    is the merge of the values, and it shares no more than this: without a
    second argument it is [c1] itself; with one it is a new object, whose
    fields are new records except for the presets that only [c2] has,
    which are the records of [c2]. *)
Definition merged_category (h h' : Ref.Heap) (c1 : loc) (oc2 : option loc) (l : loc)
    : Prop :=
  is_Some (Ref.h_categories h' !! l)
  ∧ Ref.read_category h' l
    = mergeConfig (Ref.read_category h c1) (Ref.read_category h <$> oc2)
  ∧ match oc2 with
    | None => l = c1
    | Some c2 =>
        Ref.h_categories h !! l = None
        ∧ ∀ p ro, Ref.deref (Ref.h_categories h') l !! p = Some ro →
            Ref.h_options h !! ro = None
            ∨ (Ref.deref (Ref.h_categories h) c1 !! p = None
               ∧ Ref.deref (Ref.h_categories h) c2 !! p = Some ro)
    end.

(** ** Errors, locales and the message AST *)

Inductive Error :=
  | TypeError (msg : string)
  | SyntaxError (msg : string)
  | RangeError (msg : string)
  | FormatError (name msg : string).

(** [string | string[]]. *)
Inductive Locales :=
  | LocaleTag (tag : string)
  | LocaleList (tags : list string).

#[global] Instance Locales_eq_dec : EqDecision Locales.
Proof. solve_decision. Defined.

#[global] Instance Locales_countable : Countable Locales.
Proof.
  apply (inj_countable'
    (λ l, match l with LocaleTag t => inl t | LocaleList ts => inr ts end)
    (λ x, match x with inl t => LocaleTag t | inr ts => LocaleList ts end)).
  by intros [].
Defined.

Module Ast.

Inductive PluralType := cardinal | ordinal.

Inductive Style :=
  | StyleName (name : string)
  | StyleOptions (options : OptionsRecord).

(** Modelled from the spec: the node type [MessageFormatElement], which
    is declared by the parser package and not by the file under
    verification.  The constructors are the variants of the data model:
    literal text, plain argument, number, date and time substitutions,
    select and plural with their labelled branches, rich-text tag and the
    pound placeholder. *)
Inductive MessageFormatElement :=
  | Literal (text : string)
  | Argument (name : string)
  | Number (name : string) (style : option Style)
  | Date (name : string) (style : option Style)
  | Time (name : string) (style : option Style)
  | Select (name : string) (branches : list (string * list MessageFormatElement))
  | Plural (name : string) (pluralType : PluralType) (offset : Z)
           (branches : list (string * list MessageFormatElement))
  | Tag (name : string) (children : list MessageFormatElement)
  | Pound.

End Ast.

Export Ast (MessageFormatElement).

(** What a caller can pass as [message]: a string, an array of nodes, or
    (from untyped code) any other value. *)
Inductive AstValue :=
  | AstArray (els : list MessageFormatElement)
  | NotAnArray.

Inductive Message :=
  | MessageString (s : string)
  | MessageValue (v : AstValue).

(** The parser, an external collaborator: [parse(text, {ignoreTag})] returns
    an array of nodes or throws. *)
Record ParserOptions := { ignoreTag : option bool }.

Definition Parser : Type := string → ParserOptions → Error + list MessageFormatElement.

(** ** Formatter cache *)

Module Memo.

Inductive Kind := NumberFormat | DateTimeFormat | PluralRules.

#[global] Instance Kind_eq_dec : EqDecision Kind.
Proof. solve_decision. Defined.

(** An options object as a caller passes it: its own properties in
    their order, which a serializer may well see; and the record it is
    as a value. *)
Definition Options : Type := list (string * OptionValue).

Definition as_record (o : Options) : OptionsRecord := list_to_map o.

(** The arguments [(...args)] of a formatter factory: [(locales, options)],
    either of which may be undefined. *)
Record Args := mkArgs {
  arg_locales : option Locales;
  arg_options : option Options;
}.

(** Structural (deep) equality of two argument lists: the same locales,
    and options with the same fields of the same values, in whichever
    order. *)
Definition deep_equal (a1 a2 : Args) : Prop :=
  arg_locales a1 = arg_locales a2
  ∧ as_record <$> arg_options a1 = as_record <$> arg_options a2.

#[global] Instance Args_eq_dec : EqDecision Args.
Proof. solve_decision. Defined.

#[global] Instance Args_countable : Countable Args.
Proof.
  apply (inj_countable' (λ a, (arg_locales a, arg_options a))
                        (λ p, mkArgs p.1 p.2)).
  by intros [].
Defined.

(** An [Intl.NumberFormat], [Intl.DateTimeFormat] or [Intl.PluralRules]
    object.  [obj_id] is its identity: each [new] yields an object with
    an identity not used before. *)
Record IntlObject := mkIntlObject {
  obj_id : positive;
  obj_kind : Kind;
  obj_args : Args;
}.

(** The external primitives this file consumes. *)
Class Host := {
  (** the serializer of the memoizer: arguments to cache key *)
  serialize : Args → string;
  (** the check an [Intl] constructor does on its arguments: an error to
      throw, or none *)
  intl_check : Kind → Args → option Error;
  (** [Intl.NumberFormat.supportedLocalesOf] *)
  supportedLocalesOf : Locales → Error + list string;
  (** [new Intl.NumberFormat().resolvedOptions().locale] *)
  host_locale : string;
}.

(** The three stores of a [FormatterCache], lines 154-158. *)
Record FormatterCache := mkCache {
  number : gmap string IntlObject;
  dateTime : gmap string IntlObject;
  pluralRules : gmap string IntlObject;
}.

Definition empty_cache : FormatterCache :=
  {| number := ∅; dateTime := ∅; pluralRules := ∅ |}.

(** The state the factories act on: the cache object and the identity
    the next constructed object gets. *)
Record State := mkState {
  cache : FormatterCache;
  next_id : positive;
}.

(** The stores are plain objects ([{}], lines 154-158): besides its own
    properties, which the map holds, a store has the properties it
    inherits from [Object.prototype], and both [key in store] and
    [store[key]] find them. *)
Definition Object_prototype : list string :=
  ["constructor"; "hasOwnProperty"; "isPrototypeOf"; "propertyIsEnumerable";
   "toLocaleString"; "toString"; "valueOf"; "__proto__";
   "__defineGetter__"; "__defineSetter__"; "__lookupGetter__"; "__lookupSetter__"].

Definition inherited (key : string) : bool := existsb (String.eqb key) Object_prototype.

(** What [store[key]] finds: a value that was stored, or the member of
    [Object.prototype] of that name. *)
Inductive Member (V : Type) :=
  | Own (v : V)
  | Inherited (name : string).
Arguments Own {V}.
Arguments Inherited {V}.

(** [createFastMemoizeCache(store)], lines 100-116: the three operations
    on the store.  The values [V] stored are objects, none of them
    [undefined]; [get] gives nothing for [undefined].  The assignment
    [store[key] = value] makes an own property for every key but
    [__proto__], for which it would set the prototype of the store; that
    one assignment is outside the model ([get] finds that key in every
    store, so a memoizer that sets after an [undefined] get never makes
    it). *)
Record Cache (V : Type) := mkFastCache {
  has : string → gmap string V → bool;
  get : string → gmap string V → option (Member V);
  set : string → V → gmap string V → gmap string V;
}.
Arguments has {V}.
Arguments get {V}.
Arguments set {V}.

Definition createFastMemoizeCache {V} : Cache V :=
  {| has key store := bool_decide (is_Some (store !! key)) || inherited key;
     get key store :=
       match store !! key with
       | Some v => Some (Own v)
       | None => if inherited key then Some (Inherited key) else None
       end;
     set key value store := <[key := value]> store |}.

(** [new Intl.X(...args)]. *)
Definition construct `{Host} (k : Kind) (args : Args) (next : positive)
    : (Error + IntlObject) * positive :=
  match intl_check k args with
  | Some e => (inl e, next)
  | None => (inr {| obj_id := next; obj_kind := k; obj_args := args |}, Pos.succ next)
  end.

(** Modelled from the spec: the memoizer [memoizeIntl(fn, {cache,
    strategy: variadic})] of the external package fast-memoize, of which
    only the call is in the file.  It serializes the arguments into a
    cache key; on a miss it constructs the instance and stores it, on a
    hit it returns what the cache holds under the key, unchanged. *)
Definition memoizeIntl `{Host} {V} (fn : Args → positive → (Error + V) * positive)
    (c : Cache V) (args : Args) (store : gmap string V) (next : positive)
    : (Error + Member V) * gmap string V * positive :=
  let key := serialize args in
  match get c key store with
  | Some m => (inr m, store, next)
  | None =>
      match fn args next with
      | (inl e, next') => (inl e, store, next')
      | (inr v, next') => (inr (Own v), set c key v store, next')
      end
  end.

(** A formatter factory: a function of the arguments that acts on the
    state. *)
Definition Getter : Type := Args → State → (Error + Member IntlObject) * State.

Record Formatters := mkFormatters {
  getNumberFormat : Getter;
  getDateTimeFormat : Getter;
  getPluralRules : Getter;
}.

(** [createDefaultFormatters(cache)], lines 122-146: each factory is
    memoized over its own store of the cache. *)
Definition createDefaultFormatters `{Host} : Formatters :=
  {| getNumberFormat args st :=
       let '(r, store, n) :=
         memoizeIntl (construct NumberFormat) createFastMemoizeCache args
                     (number (cache st)) (next_id st) in
       (r, {| cache := {| number := store; dateTime := dateTime (cache st);
                          pluralRules := pluralRules (cache st) |};
              next_id := n |});
     getDateTimeFormat args st :=
       let '(r, store, n) :=
         memoizeIntl (construct DateTimeFormat) createFastMemoizeCache args
                     (dateTime (cache st)) (next_id st) in
       (r, {| cache := {| number := number (cache st); dateTime := store;
                          pluralRules := pluralRules (cache st) |};
              next_id := n |});
     getPluralRules args st :=
       let '(r, store, n) :=
         memoizeIntl (construct PluralRules) createFastMemoizeCache args
                     (pluralRules (cache st)) (next_id st) in
       (r, {| cache := {| number := number (cache st); dateTime := dateTime (cache st);
                          pluralRules := store |};
              next_id := n |}) |}.

(** The factory of a kind, and the store it is memoized over. *)
Definition getter (fs : Formatters) (k : Kind) : Getter :=
  match k with
  | NumberFormat => getNumberFormat fs
  | DateTimeFormat => getDateTimeFormat fs
  | PluralRules => getPluralRules fs
  end.

Definition store_of (k : Kind) (c : FormatterCache) : gmap string IntlObject :=
  match k with
  | NumberFormat => number c
  | DateTimeFormat => dateTime c
  | PluralRules => pluralRules c
  end.

(** A run of [get] calls on one cache object: the results in call
    order and the final state. *)
Fixpoint run `{Host} (calls : list (Kind * Args)) (st : State)
    : list (Error + Member IntlObject) * State :=
  match calls with
  | [] => ([], st)
  | (k, a) :: calls =>
      let '(r, st') := getter createDefaultFormatters k a st in
      let '(rs, st'') := run calls st' in
      (r :: rs, st'')
  end.

(** The state a new instance starts from: its own empty cache. *)
Definition initial (next : positive) : State :=
  {| cache := empty_cache; next_id := next |}.

(** An object is stored in the store of kind [k] under [key]. *)
Definition stored (st : State) (k : Kind) (key : string) (o : IntlObject) : Prop :=
  store_of k (cache st) !! key = Some o.

(** The invariant of a cache the factories alone have filled: a stored
    object was constructed before, by the factory of its store, from
    arguments that serialize to its key; and no object is stored twice. *)
Definition cache_inv `{Host} (st : State) : Prop :=
  (∀ k key o, stored st k key o →
     (obj_id o < next_id st)%positive ∧ obj_kind o = k ∧ serialize (obj_args o) = key)
  ∧ (∀ k1 key1 o1 k2 key2 o2,
       stored st k1 key1 o1 → stored st k2 key2 o2 → obj_id o1 = obj_id o2 →
       k1 = k2 ∧ key1 = key2).

End Memo.

(** ** The message facade: class [IntlMessageFormat] *)

(** Modelled from the spec: the output part type [MessageFormatPart<T>],
    declared by the module [./formatters] that is not part of the file: a
    literal part carries text, an object part carries a value of the
    caller's rich-content type [T]. *)
Inductive MessageFormatPart (T : Type) :=
  | LiteralPart (value : string)
  | ObjectPart (value : T).
Arguments LiteralPart {T}.
Arguments ObjectPart {T}.

(** The interpreter [formatToParts] of [./formatters], an external
    collaborator of the class, and the two tests JavaScript makes on a
    rich-content value: its truthiness (what [v || ''] tests), and
    [typeof v === 'string'].  The type [T] is the caller's and may have
    strings among its values: [as_string v] is the string [v] is when it
    is one. *)
Class Interpreter (T Values : Type) := {
  formatters_formatToParts :
    list MessageFormatElement → Locales → Memo.Formatters → Formats →
    option Values → option Z → option string → Error + list (MessageFormatPart T);
  truthy : T → bool;
  as_string : T → option string;
}.

Module Options.
(** [interface Options], lines 89-98. *)
Record t := mk {
  formatters : option Memo.Formatters;
  ignoreTag : option bool;
}.
End Options.

Module Static.
(** The static members of the class: [__parse], [formats] (a reference to
    the default configuration object) and [memoizedDefaultLocale]. *)
Record t := mk {
  __parse : option Parser;
  formats : loc;
  memoizedDefaultLocale : option string;
}.
End Static.

(** The process-wide state: the static members and the heap of
    configuration objects. *)
Record World := mkWorld {
  statics : Static.t;
  heap : Ref.Heap;
}.

(** An instance, lines 149-158. *)
Record IntlMessageFormat := mkIntlMessageFormat {
  ast : list MessageFormatElement;
  locales : Locales;
  formatters : Memo.Formatters;
  formats : loc;
  message : option string;
  formatterCache : Memo.FormatterCache;
}.

(** The result of [format]: [string | T | Array<string | T>]. *)
Inductive Formatted (T : Type) :=
  | FString (s : string)
  | FObject (o : T)
  | FArray (l : list (string + T)).
Arguments FString {T}.
Arguments FObject {T}.
Arguments FArray {T}.

Record ResolvedOptions := { locale : option string }.

(** Assignments to the static members. *)
Definition set_parse (p : option Parser) (w : World) : World :=
  {| statics := {| Static.__parse := p;
                   Static.formats := Static.formats (statics w);
                   Static.memoizedDefaultLocale := Static.memoizedDefaultLocale (statics w) |};
     heap := heap w |}.

Definition set_formats (l : loc) (w : World) : World :=
  {| statics := {| Static.__parse := Static.__parse (statics w);
                   Static.formats := l;
                   Static.memoizedDefaultLocale := Static.memoizedDefaultLocale (statics w) |};
     heap := heap w |}.

Definition set_memoizedDefaultLocale (l : option string) (w : World) : World :=
  {| statics := {| Static.__parse := Static.__parse (statics w);
                   Static.formats := Static.formats (statics w);
                   Static.memoizedDefaultLocale := l |};
     heap := heap w |}.

Definition set_heap (h : Ref.Heap) (w : World) : World :=
  {| statics := statics w; heap := h |}.

Section Facade.
Context `{Memo.Host}.

(** [static get defaultLocale()], lines 239-245. *)
Definition defaultLocale (w : World) : string * World :=
  match Static.memoizedDefaultLocale (statics w) with
  | Some l =>
      if Js.truthy_string l then (l, w)
      else (Memo.host_locale, set_memoizedDefaultLocale (Some Memo.host_locale) w)
  | None => (Memo.host_locale, set_memoizedDefaultLocale (Some Memo.host_locale) w)
  end.

(** The first statement of the constructor, lines 165-178: the message
    and the AST to store, or the error thrown. *)
Definition parse_message (msg : Message) (opts : option Options.t) (w : World)
    : Error + (option string * AstValue) :=
  match msg with
  | MessageString s =>
      match Static.__parse (statics w) with
      | None =>
          inl (TypeError
            "IntlMessageFormat.__parse must be set to process `message` of type `string`")
      | Some parse =>
          match parse s {| ignoreTag := opts ≫= Options.ignoreTag |} with
          | inl e => inl e
          | inr els => inr (Some s, AstArray els)
          end
      end
  | MessageValue v => inr (None, v)
  end.

(** [constructor(message, locales, overrideFormats, opts)], lines 159-193:
    the instance or the error thrown, and the state afterwards. *)
Definition new_IntlMessageFormat (msg : Message) (locales : option Locales)
    (overrideFormats : option loc) (opts : option Options.t) (w : World)
    : (Error + IntlMessageFormat) * World :=
  let '(locales, w) :=
    match locales with
    | Some l => (l, w)
    | None => let '(l, w') := defaultLocale w in (LocaleTag l, w')
    end in
  match parse_message msg opts w with
  | inl e => (inl e, w)
  | inr (message, a) =>
      match a with (* Array.isArray(this.ast) *)
      | NotAnArray =>
          (inl (TypeError "A message must be provided as a String or AST."), w)
      | AstArray els =>
          let '(f, h) :=
            Ref.mergeConfigs (Static.formats (statics w)) overrideFormats (heap w) in
          (inr {| ast := els;
                  locales := locales;
                  formatters :=
                    match opts ≫= Options.formatters with
                    | Some fs => fs
                    | None => Memo.createDefaultFormatters
                    end;
                  formats := f;
                  message := message;
                  formatterCache := Memo.empty_cache |},
           set_heap h w)
      end
  end.

(** [resolvedOptions], lines 233-235. *)
Definition resolvedOptions (this : IntlMessageFormat) : Error + ResolvedOptions :=
  match Memo.supportedLocalesOf (locales this) with
  | inl e => inl e
  | inr supported => inr {| locale := supported !! 0%nat |}
  end.

(** [getAst], line 236. *)
Definition getAst (this : IntlMessageFormat) : list MessageFormatElement := ast this.

(** The configuration an instance formats with: the value of the object
    its [formats] field refers to. *)
Definition effective_formats (w : World) (this : IntlMessageFormat) : Formats :=
  Ref.read_formats (heap w) (formats this).

Section Format.
Context {T Values : Type} `{!Interpreter T Values}.

(** [formatToParts], lines 221-232. *)
Definition formatToParts (w : World) (this : IntlMessageFormat)
    (values : option Values) : Error + list (MessageFormatPart T) :=
  formatters_formatToParts (ast this) (locales this) (formatters this)
    (effective_formats w this) values None (message this).

(** [part.value], as an element of the [Array<string | T>] of the
    result: on the left when it is a string, whichever type the part
    has; on the right are the values that are no strings. *)
Definition part_value (part : MessageFormatPart T) : string + T :=
  match part with
  | LiteralPart s => inl s
  | ObjectPart o => match as_string o with Some s => inl s | None => inr o end
  end.

(** The callback of the [reduce], lines 203-214: push the value, or
    append it to the last element when the part is a literal and the
    last element is a string ([typeof all[all.length - 1] === 'string'],
    true of the text of a literal part and of the value of an object part
    that is a string). *)
Definition coalesce_step (all : list (string + T)) (part : MessageFormatPart T)
    : list (string + T) :=
  match part, last all with
  | LiteralPart s, Some (inl s') => <[pred (length all) := inl (s' +:+ s)]> all
  | _, _ => all ++ [part_value part]
  end.

(** [v || ''] for an element of the result, and for a missing one. *)
Definition or_empty_string (v : option (string + T)) : Formatted T :=
  match v with
  | Some (inl s) => FString (if Js.truthy_string s then s else "")
  | Some (inr o) => if truthy o then FObject o else FString ""
  | None => FString ""
  end.

(** The body of [format] after [formatToParts] returned, lines 199-219. *)
Definition format_parts (parts : list (MessageFormatPart T)) : Formatted T :=
  match parts with
  | [part] =>
      match part_value part with inl s => FString s | inr o => FObject o end
  | _ =>
      let result := foldl coalesce_step [] parts in
      if decide (length result ≤ 1)%nat then or_empty_string (result !! 0%nat)
      else FArray result
  end.

(** [format], lines 195-220. *)
Definition format (w : World) (this : IntlMessageFormat) (values : option Values)
    : Error + Formatted T :=
  match formatToParts w this values with
  | inl e => inl e
  | inr parts => inr (format_parts parts)
  end.

Definition is_literal (part : MessageFormatPart T) : bool :=
  match part with LiteralPart _ => true | ObjectPart _ => false end.

Definition starts_with_literal (parts : list (MessageFormatPart T)) : bool :=
  match parts with part :: _ => is_literal part | [] => false end.

(** A value before a result: a string before the string a literal part
    began is joined with it, any other value is an element of its own. *)
Definition before (v : string + T) (literal_next : bool) (r : list (string + T))
    : list (string + T) :=
  match v, literal_next, r with
  | inl s, true, inl s' :: r' => inl (s +:+ s') :: r'
  | _, _, _ => v :: r
  end.

(** The result of the [reduce] by recursion on the parts: the value of a
    part before the result for the rest.  So a string takes up the
    literal parts that directly follow it, and every other part is an
    element of its own, in order. *)
Fixpoint coalesce_runs (parts : list (MessageFormatPart T)) : list (string + T) :=
  match parts with
  | [] => []
  | part :: rest =>
      before (part_value part) (starts_with_literal rest) (coalesce_runs rest)
  end.

(** The part has a string for its value. *)
Definition string_valued (part : MessageFormatPart T) : bool :=
  match part_value part with inl _ => true | inr _ => false end.

(** The part is an object part whose value is a string. *)
Definition string_object (part : MessageFormatPart T) : bool :=
  negb (is_literal part) && string_valued part.

(** The parts the [reduce] makes one string of: a part with a string
    value followed by literal parts only, or no part at all. *)
Definition single_run (parts : list (MessageFormatPart T)) : bool :=
  match parts with
  | [] => true
  | part :: rest => string_valued part && forallb is_literal rest
  end.

Definition part_text (part : MessageFormatPart T) : string :=
  match part_value part with inl s => s | inr _ => "" end.

(** The concatenation of the strings among the part values. *)
Definition joined_text (parts : list (MessageFormatPart T)) : string :=
  foldr (λ part acc, part_text part +:+ acc) "" parts.

(** No two neighbours of a sequence are both strings. *)
Fixpoint no_adjacent_strings (l : list (string + T)) : Prop :=
  match l with
  | inl _ :: ((inl _ :: _) as l') => False
  | _ :: l' => no_adjacent_strings l'
  | [] => True
  end.

(** The values that are no strings, of a result and of a part sequence,
    in order. *)
Definition objects_of (l : list (string + T)) : list T :=
  omap (λ v, match v with inr o => Some o | inl _ => None end) l.

Definition part_objects (parts : list (MessageFormatPart T)) : list T :=
  omap (λ p, match part_value p with inr o => Some o | inl _ => None end) parts.

(** The text of a result: its strings, concatenated. *)
Definition result_text (r : list (string + T)) : string :=
  foldr (λ v acc, match v with inl s => s +:+ acc | inr _ => acc end) "" r.

(** No literal part comes directly after a part whose value is a
    string: the [reduce] appends nothing. *)
Fixpoint no_literal_after_string (parts : list (MessageFormatPart T)) : Prop :=
  match parts with
  | part :: ((LiteralPart _ :: _) as rest) =>
      string_valued part = false ∧ no_literal_after_string rest
  | _ :: rest => no_literal_after_string rest
  | [] => True
  end.

End Format.
End Facade.

(** [IntlMessageFormat.formats[k][p][f] = v]: an assignment to an option
    of a preset of the static default configuration, in place.  When the
    category or the preset is undefined the assignment throws and nothing
    changes. *)
Definition assign_default_option (k p f : string) (v : OptionValue) (w : World) : World :=
  match Ref.deref (Ref.h_formats (heap w)) (Static.formats (statics w)) !! k with
  | Some c =>
      match Ref.deref (Ref.h_categories (heap w)) c !! p with
      | Some o => set_heap (Ref.write_options o f v (heap w)) w
      | None => w
      end
  | None => w
  end.

(** The override of the usual example: a preset [usd] for numbers that
    the defaults do not have. *)
Definition usd_override : Formats :=
  {[ "number" := {[ "usd" := opts [("style", "currency"); ("currency", "USD")] ]} ]}.

(** ** Concrete collaborators, for examples *)

(** A host whose serializer is injective: the printed code of the
    arguments, options in their order. *)
Definition example_host : Memo.Host :=
  {| Memo.serialize a := pretty (encode a);
     Memo.intl_check _ _ := None;
     Memo.supportedLocalesOf l :=
       inr (match l with LocaleTag t => [t] | LocaleList ts => ts end);
     Memo.host_locale := "en-US" |}.

(** A parser that reads a text as one literal, and an interpreter for
    messages of literal nodes: one literal part per node. *)
Definition literal_parser : Parser := λ s _, inr [Ast.Literal s].

Definition literal_parts (els : list MessageFormatElement)
    : Error + list (MessageFormatPart Z) :=
  foldr (λ el acc,
           match el, acc with
           | Ast.Literal text, inr ps => inr (LiteralPart text :: ps)
           | _, inr _ => inl (FormatError "INVALID_VALUE" "not a literal")
           | _, inl e => inl e
           end)
        (inr []) els.

Definition literal_interpreter : Interpreter Z unit :=
  {| formatters_formatToParts els _ _ _ _ _ _ := literal_parts els;
     truthy z := negb (Z.eqb z 0);
     as_string _ := None |}.

(** The state of a program that has loaded the class: the default
    configuration allocated, the static members at their initial values. *)
Definition initial_world (parse : option Parser) : World :=
  let '(d, h) := Ref.alloc_formats default_formats Ref.empty_heap in
  {| statics := {| Static.__parse := parse; Static.formats := d;
                   Static.memoizedDefaultLocale := None |};
     heap := h |}.

(** The instance [new IntlMessageFormat([], 'en')] of that state. *)
Definition empty_message : IntlMessageFormat :=
  {| ast := []; locales := LocaleTag "en";
     formatters := @Memo.createDefaultFormatters example_host;
     formats := 1%positive; message := None;
     formatterCache := Memo.empty_cache |}.

(** The instance [new IntlMessageFormat([a, b], 'en')] for two literal
    nodes. *)
Definition two_literals : IntlMessageFormat :=
  {| ast := [Ast.Literal "a"; Ast.Literal "b"]; locales := LocaleTag "en";
     formatters := @Memo.createDefaultFormatters example_host;
     formats := 1%positive; message := None;
     formatterCache := Memo.empty_cache |}.

(** The state after the caller has built the override object, and the
    reference to it. *)
Definition world_with_override : World * loc :=
  let w := initial_world None in
  let '(c, h) := Ref.alloc_formats usd_override (heap w) in
  (set_heap h w, c).





(** The options record of a preset of a configuration, and the style of
    the number preset [currency]. *)
Definition preset_of (F : Formats) (k p : string) : option OptionsRecord :=
  match F !! k with Some c => c !! p | None => None end.

(** The options record an override has for a preset, if there is an
    override and it has the category and the preset. *)
Definition override_preset (O : option Formats) (k p : string) : option OptionsRecord :=
  match O with Some ov => preset_of ov k p | None => None end.

Definition currency_style (F : Formats) : option OptionValue :=
  match preset_of F "number" "currency" with Some o => o !! "style" | None => None end.

(** The construction of an instance with the [usd] override, and the
    instance. *)
Definition usd_construction : (Error + IntlMessageFormat) * World :=
  @new_IntlMessageFormat example_host (MessageValue (AstArray []))
    (Some (LocaleTag "en")) (Some world_with_override.2) None world_with_override.1.

Definition usd_instance : IntlMessageFormat :=
  match usd_construction.1 with inr this => this | inl _ => empty_message end.

(** ** Further definitions *)

Definition option_of (F : Formats) (k p f : string) : option OptionValue :=
  match preset_of F k p with Some o => o !! f | None => None end.

Definition combine_overrides (O1 O2 : Formats) : Formats :=
  union_with (λ a b, Some (mergeConfig a (Some b))) O1 O2.

Definition empty_number_override : Formats := {[ "number" := ∅ ]}.

(** A rich-content type that has strings: a text, or a node of the
    caller (an element built by a tag function, say). *)
Inductive Rich :=
  | RichText (s : string)
  | RichNode (n : Z).

(** An interpreter that yields the parts it is given as values. *)
Definition parts_interpreter : Interpreter Rich (list (MessageFormatPart Rich)) :=
  {| formatters_formatToParts _ _ _ _ values _ _ := inr (default [] values);
     truthy v := match v with RichText s => Js.truthy_string s | RichNode _ => true end;
     as_string v := match v with RichText s => Some s | RichNode _ => None end |}.

Definition bold_parts : list (MessageFormatPart Rich) :=
  [LiteralPart "a"; ObjectPart (RichNode 7); LiteralPart "b"].

(** An object part whose value is the string [x], before a literal. *)
Definition text_then_literal : list (MessageFormatPart Rich) :=
  [ObjectPart (RichText "x"); LiteralPart "a"].

(** ** The locale-data script: [main], lines 6-28 *)

Module Cldr.

(** The file system: path to content. *)
Abbreviation Files := (gmap string string).

(** The value of the command-line argument [locales]: absent, a string,
    or (from a flag without a value, or a number) another value, which is
    truthy or falsy. *)
Inductive ArgValue :=
  | ArgUndefined
  | ArgString (s : string)
  | ArgTruthy
  | ArgFalsy.

Record Args := mkArgs {
  cldrFolder : string;
  locales : ArgValue;
  outDir : string;
}.

Inductive Failure :=
  | ENOENT (path : string)
  | NotAFunction (callee : string).

(** The functions of [path] and [fast-glob] the script calls, and the
    default order of [Array.prototype.sort]. *)
Class Env := {
  join : string → string → string;
  basename : string → string → string;
  globSync : string → Files → list string;
  sort : list string → list string;
}.

(** [s.split(sep)] for a one-character separator. *)
Fixpoint split (sep : Ascii.ascii) (s : string) : list string :=
  match s with
  | EmptyString => [""]
  | String c s' =>
      if Ascii.eqb c sep then "" :: split sep s'
      else match split sep s' with
           | x :: xs => String c x :: xs
           | [] => [String c ""]
           end
  end.

Definition newline : string := String (Ascii.ascii_of_nat 10) "".

Definition comma : Ascii.ascii := Ascii.ascii_of_nat 44.

(** The content written for the data of a locale, lines 20-25. *)
Definition generated (data : string) : string :=
  "/* @generated */" +:+ newline
  +:+ "// prettier-ignore" +:+ newline
  +:+ "if (Intl.PluralRules && typeof Intl.PluralRules.__addLocaleData === 'function') {"
  +:+ newline
  +:+ "  Intl.PluralRules.__addLocaleData(" +:+ data +:+ ")" +:+ newline
  +:+ "}" +:+ newline.

Section main.
Context `{Env}.

(** [join(cldrFolder, `${locale}.js`)] and [join(outDir, locale + '.js')]. *)
Definition source_of (args : Args) (locale : string) : string :=
  join (cldrFolder args) (locale +:+ ".js").

Definition dest_of (args : Args) (locale : string) : string :=
  join (outDir args) (locale +:+ ".js").

(** The locales to generate, lines 7-12. *)
Definition locales_to_generate (args : Args) (fs : Files) : Failure + list string :=
  let allFiles := sort (globSync (join (cldrFolder args) "*.js") fs) in
  let localesToGen :=
    match locales args with ArgUndefined => ArgString "" | v => v end in
  match localesToGen with
  | ArgString s =>
      if Js.truthy_string s then inr (split comma s)
      else inr ((λ f, basename f ".js") <$> allFiles)
  | ArgTruthy => inl (NotAFunction "localesToGen.split")
  | ArgUndefined | ArgFalsy => inr ((λ f, basename f ".js") <$> allFiles)
  end.

(** The loop, lines 15-27: read the data of a locale, write the generated
    file; a read of a file that does not exist throws. *)
Fixpoint dist (args : Args) (ls : list string) (fs : Files) : option Failure * Files :=
  match ls with
  | [] => (None, fs)
  | locale :: rest =>
      match fs !! source_of args locale with
      | None => (Some (ENOENT (source_of args locale)), fs)
      | Some data => dist args rest (<[dest_of args locale := generated data]> fs)
      end
  end.

(** [main(args)]: the error thrown, if any, and the file system
    afterwards. *)
Definition main (args : Args) (fs : Files) : option Failure * Files :=
  match locales_to_generate args fs with
  | inl e => (Some e, fs)
  | inr ls => dist args ls fs
  end.

End main.
End Cldr.

(** An environment for examples: [join] puts a slash between its
    arguments; no file matches a pattern. *)
Definition example_env : Cldr.Env :=
  {| Cldr.join a b := a +:+ "/" +:+ b;
     Cldr.basename f _ := f;
     Cldr.globSync _ _ := [];
     Cldr.sort l := l |}.

Definition example_args : Cldr.Args :=
  {| Cldr.cldrFolder := "cldr"; Cldr.locales := Cldr.ArgString "en,fr"; Cldr.outDir := "out" |}.

Definition example_files : Cldr.Files :=
  {[ "cldr/en.js" := "{en}"; "cldr/fr.js" := "{fr}" ]}.

Definition example_args_missing : Cldr.Args :=
  {| Cldr.cldrFolder := "cldr"; Cldr.locales := Cldr.ArgString "en,de,fr";
     Cldr.outDir := "out" |}.

(** * Properties *)

(** ** Records as finite maps *)

Section js_facts.
Context {V : Type}.
Implicit Types a b o : gmap string V.

Lemma lookup_spread a b k :
  Js.spread a b !! k = match b !! k with Some v => Some v | None => a !! k end.
Proof.
  unfold Js.spread. rewrite lookup_union. by destruct (b !! k), (a !! k).
Qed.

Lemma elem_of_keys o k : k ∈ Js.keys o ↔ is_Some (o !! k).
Proof.
  unfold Js.keys. rewrite list_elem_of_fmap. split.
  - intros [[k' v] [-> Hkv%elem_of_map_to_list]]. by exists v.
  - intros [v Hv]. exists (k, v). split; [done|]. by apply elem_of_map_to_list.
Qed.

Lemma not_elem_of_keys o k : k ∉ Js.keys o ↔ o !! k = None.
Proof. by rewrite elem_of_keys, eq_None_not_Some. Qed.

Lemma NoDup_keys o : NoDup (Js.keys o).
Proof. apply NoDup_fst_map_to_list. Qed.

Lemma spread_idemp a b : Js.spread (Js.spread a b) b = Js.spread a b.
Proof. unfold Js.spread. by rewrite (assoc_L (∪)), (idemp_L (∪)). Qed.

(** A [reduce] whose callback only assigns [all[k] = f k]. *)
Lemma lookup_foldl_assign (f : string → V) (ks : list string) (init : gmap string V) j :
  foldl (λ all k, <[k := f k]> all) init ks !! j
  = if decide (j ∈ ks) then Some (f j) else init !! j.
Proof.
  revert init. induction ks as [|k ks IH]; intros init; cbn [foldl].
  - rewrite decide_False; [done|set_solver].
  - rewrite IH. destruct (decide (j ∈ ks)) as [Hin|Hnin].
    + rewrite decide_True; [done|set_solver].
    + destruct (decide (j = k)) as [->|Hne].
      * rewrite decide_True; [|set_solver]. by rewrite lookup_insert_eq.
      * rewrite decide_False; [|set_solver]. by rewrite lookup_insert_ne.
Qed.

End js_facts.

(** ** The merger on values *)

Lemma lookup_mergeConfig_Some (c1 c2 : Category) p :
  mergeConfig c1 (Some c2) !! p
  = match c1 !! p with
    | Some o1 => Some (Js.spread o1 (Js.or_empty (c2 !! p)))
    | None => c2 !! p
    end.
Proof.
  unfold mergeConfig. rewrite lookup_spread, lookup_foldl_assign.
  destruct (decide (p ∈ Js.keys c1)) as [Hin|Hnin].
  - apply elem_of_keys in Hin. destruct Hin as [o1 Ho1]. rewrite Ho1. reflexivity.
  - apply not_elem_of_keys in Hnin.
    rewrite lookup_empty, lookup_spread. cbv [Js.or_empty default from_option id].
    rewrite Hnin. by destruct (c2 !! p).
Qed.

Lemma lookup_mergeConfigs_Some (D O : Formats) k :
  mergeConfigs D (Some O) !! k = (λ c1, mergeConfig c1 (O !! k)) <$> D !! k.
Proof.
  unfold mergeConfigs. rewrite lookup_foldl_assign.
  destruct (decide (k ∈ Js.keys D)) as [Hin|Hnin].
  - apply elem_of_keys in Hin. destruct Hin as [c1 Hc1]. rewrite Hc1. reflexivity.
  - apply not_elem_of_keys in Hnin. unfold Js.copy. by rewrite Hnin.
Qed.

Lemma lookup_mergeConfigs (D : Formats) (O : option Formats) k :
  mergeConfigs D O !! k = (λ c1, mergeConfig c1 (O ≫= (.!! k))) <$> D !! k.
Proof.
  destruct O as [O|]; [apply lookup_mergeConfigs_Some|].
  cbn. by destruct (D !! k).
Qed.

Lemma dom_mergeConfig (c1 : Category) (c2 : option Category) :
  dom (mergeConfig c1 c2) = dom c1 ∪ from_option dom ∅ c2.
Proof.
  destruct c2 as [c2|]; [|set_solver].
  cbn [from_option]. apply set_eq. intros p.
  rewrite elem_of_union, !elem_of_dom, lookup_mergeConfig_Some.
  destruct (c1 !! p) as [o1|]; [|destruct (c2 !! p)]; naive_solver.
Qed.

Lemma mergeConfig_idemp (c1 : Category) (c2 : option Category) :
  mergeConfig (mergeConfig c1 c2) c2 = mergeConfig c1 c2.
Proof.
  destruct c2 as [c2|]; [|done].
  apply map_eq. intros p. rewrite !lookup_mergeConfig_Some.
  destruct (c1 !! p) as [o1|].
  - by rewrite spread_idemp.
  - destruct (c2 !! p) as [o2|] eqn:E; [|done].
    cbn [Js.or_empty default]. f_equal. unfold Js.spread. by rewrite (idemp_L (∪)).
Qed.

(** C1, as stated, fails: merging the built-in defaults with an override
    that defines the number preset [usd] yields a number category that has
    the preset [usd], which the defaults do not have. *)
Lemma mergeConfigs_adds_override_only_preset :
  preset_of default_formats "number" "usd" = None
  ∧ preset_of (mergeConfigs default_formats (Some usd_override)) "number" "usd"
    = Some (opts [("style", "currency"); ("currency", "USD")]).
Proof. split; vm_compute; reflexivity. Qed.

(** C1, amended: the merged configuration has exactly the top-level
    categories of the defaults, and in each category the preset names of
    the defaults together with the preset names the override has in that
    category.  A preset that only the override has appears with the
    options record of the override; a preset of the defaults appears with
    the options of the default, overlaid with those the override gives
    for it. *)
Theorem mergeConfigs_names (D : Formats) (O : option Formats) :
  dom (mergeConfigs D O) = dom D
  ∧ (∀ k, dom <$> (mergeConfigs D O !! k)
          = (λ c1, dom c1 ∪ from_option dom ∅ (O ≫= (.!! k))) <$> (D !! k))
  ∧ (∀ k c1, D !! k = Some c1 → ∀ p,
       preset_of (mergeConfigs D O) k p
       = match c1 !! p with
         | Some o1 => Some (Js.spread o1 (Js.or_empty (override_preset O k p)))
         | None => override_preset O k p
         end).
Proof.
  split; [|split].
  - apply set_eq. intros k. rewrite !elem_of_dom, lookup_mergeConfigs.
    by rewrite fmap_is_Some.
  - intros k. rewrite lookup_mergeConfigs. destruct (D !! k) as [c1|]; [|done].
    cbn. by rewrite dom_mergeConfig.
  - intros k c1 Hk p. unfold preset_of, override_preset.
    rewrite lookup_mergeConfigs, Hk. cbn [fmap option_fmap option_map].
    assert (∀ o1 : OptionsRecord, Js.spread o1 (Js.or_empty None) = o1) as Hnone.
    { intros o1. unfold Js.spread, Js.or_empty. cbn. apply (left_id_L ∅ (∪)). }
    destruct O as [O|]; cbn [mbind option_bind].
    + unfold preset_of. destruct (O !! k) as [c2|].
      * apply lookup_mergeConfig_Some.
      * cbn [mergeConfig]. destruct (c1 !! p) as [o1|]; [|done]. by rewrite Hnone.
    + cbn [mergeConfig]. destruct (c1 !! p) as [o1|]; [|done]. by rewrite Hnone.
Qed.

(** C6: the merge is idempotent,
    [merge(merge(D, O), O) == merge(D, O)], also for an absent [O]. *)
Theorem mergeConfigs_idempotent (D : Formats) (O : option Formats) :
  mergeConfigs (mergeConfigs D O) O = mergeConfigs D O.
Proof.
  apply map_eq. intros k. rewrite !lookup_mergeConfigs.
  destruct (D !! k) as [c1|]; [|done].
  cbn. by rewrite mergeConfig_idemp.
Qed.

(** C5: with an absent override the merger returns the default
    configuration itself: the same reference, in an unchanged heap where
    nothing was allocated, and so the same value. *)
Theorem mergeConfigs_absent_override (d : loc) (h : Ref.Heap) (D : Formats) :
  Ref.mergeConfigs d None h = (d, h) ∧ mergeConfigs D None = D.
Proof. split; reflexivity. Qed.

(** ** [format]: coalescing the parts *)

Lemma string_app_assoc (s1 s2 s3 : string) : (s1 +:+ s2) +:+ s3 = s1 +:+ (s2 +:+ s3).
Proof.
  induction s1 as [|c s1 IH]; [done|].
  change (String c ((s1 +:+ s2) +:+ s3) = String c (s1 +:+ s2 +:+ s3)). by f_equal.
Qed.

Lemma string_app_nil_r (s : string) : s +:+ "" = s.
Proof.
  induction s as [|c s IH]; [done|].
  change (String c (s +:+ "") = String c s). by f_equal.
Qed.

Lemma insert_last_snoc {A} (l : list A) (x y : A) :
  <[pred (length (l ++ [x])) := y]> (l ++ [x]) = l ++ [y].
Proof.
  rewrite length_app. cbn [length]. rewrite Nat.add_1_r. cbn [pred].
  replace (length l) with (length l + 0)%nat at 1 by lia.
  by rewrite insert_app_r.
Qed.

Section format_facts.
Context `{Memo.Host} {T Values : Type} `{!Interpreter T Values}.
Implicit Types (parts rest : list (MessageFormatPart T)) (all r : list (string + T)).
Implicit Types (part : MessageFormatPart T) (v : string + T).

Lemma coalesce_step_object all o :
  coalesce_step all (ObjectPart o) = all ++ [part_value (ObjectPart o)].
Proof. unfold coalesce_step. by destruct (last all) as [[]|]. Qed.

Lemma coalesce_step_nil part : coalesce_step [] part = [part_value part].
Proof. by destruct part. Qed.

Lemma coalesce_step_after_string all a s :
  coalesce_step (all ++ [inl a]) (LiteralPart s) = all ++ [inl (a +:+ s)].
Proof. unfold coalesce_step. rewrite last_snoc. apply insert_last_snoc. Qed.

Lemma coalesce_step_after_object all o part :
  coalesce_step (all ++ [inr o]) part = all ++ [inr o; part_value part].
Proof.
  unfold coalesce_step. rewrite last_snoc, <- (assoc_L (++)). by destruct part.
Qed.

Lemma coalesce_step_one v part :
  coalesce_step [v] part
  = match v, part with
    | inl a, LiteralPart s => [inl (a +:+ s)]
    | _, _ => [v; part_value part]
    end.
Proof. by destruct v, part. Qed.

(** A step reads and writes the last element only. *)
Lemma coalesce_step_last all v part :
  coalesce_step (all ++ [v]) part = all ++ coalesce_step [v] part.
Proof.
  rewrite coalesce_step_one. destruct v as [a|o].
  - destruct part as [s|o'].
    + by rewrite coalesce_step_after_string.
    + by rewrite !coalesce_step_object, <- (assoc_L (++)).
  - rewrite coalesce_step_after_object. by destruct part.
Qed.

Lemma foldl_coalesce_step_last parts all v :
  foldl coalesce_step (all ++ [v]) parts = all ++ foldl coalesce_step [v] parts.
Proof.
  revert all v. induction parts as [|part rest IH]; intros all v; [done|].
  cbn [foldl]. rewrite coalesce_step_last, coalesce_step_one.
  assert (∀ x y, foldl coalesce_step (all ++ [x; y]) rest
                 = all ++ foldl coalesce_step [x; y] rest) as Hpush.
  { intros x y. change [x; y] with ([x] ++ [y]).
    by rewrite (assoc_L (++)), IH, (IH [x]), <- (assoc_L (++)). }
  destruct v as [a|o]; [destruct part as [s|o']|]; by try apply IH.
Qed.

Lemma foldl_coalesce_step_two rest (x y : string + T) :
  foldl coalesce_step [x; y] rest = x :: foldl coalesce_step [y] rest.
Proof. apply (foldl_coalesce_step_last rest [x] y). Qed.

(** The [reduce] continued from one string: a longer string in front
    only lengthens the first element. *)
Lemma foldl_coalesce_step_prefix rest (t s : string) :
  ∃ s1 r1, foldl coalesce_step [inl s] rest = inl s1 :: r1
           ∧ foldl coalesce_step [inl (t +:+ s)] rest = inl (t +:+ s1) :: r1.
Proof.
  revert s. induction rest as [|[u|o] rest IH]; intros s; cbn [foldl].
  - by exists s, [].
  - rewrite !coalesce_step_one. rewrite string_app_assoc. apply IH.
  - rewrite !coalesce_step_one.
    rewrite !foldl_coalesce_step_two.
    by exists s, (foldl coalesce_step [part_value (ObjectPart o)] rest).
Qed.

Lemma foldl_coalesce_step_one rest v :
  foldl coalesce_step [v] rest = before v (starts_with_literal rest) (coalesce_runs rest).
Proof.
  revert v. induction rest as [|part rest IH]; intros v; [by destruct v|].
  cbn [foldl coalesce_runs]. rewrite coalesce_step_one, <- IH.
  destruct v as [a|o]; [destruct part as [s|o']|].
  - destruct (foldl_coalesce_step_prefix rest a s) as (s1 & r1 & E1 & ->).
    cbn [part_value starts_with_literal is_literal]. by rewrite E1.
  - by rewrite foldl_coalesce_step_two.
  - destruct part; by rewrite foldl_coalesce_step_two.
Qed.

(** The [reduce] of [format] computes [coalesce_runs]. *)
Lemma reduce_coalesce_runs parts : foldl coalesce_step [] parts = coalesce_runs parts.
Proof.
  destruct parts as [|part rest]; [done|].
  cbn [foldl coalesce_runs]. rewrite coalesce_step_nil. apply foldl_coalesce_step_one.
Qed.

Lemma before_cons v b r : ∃ v' r', before v b r = v' :: r'.
Proof. destruct v as [s|o], b, r as [|[s'|o'] r']; cbn; eauto. Qed.

Lemma before_length v b r : (length r ≤ length (before v b r))%nat.
Proof. destruct v as [s|o], b, r as [|[s'|o'] r']; cbn; lia. Qed.

(** The result for parts that begin with a literal begins with a string. *)
Lemma coalesce_runs_literal_first s rest :
  ∃ t r, coalesce_runs (LiteralPart s :: rest) = inl t :: r.
Proof.
  cbn [coalesce_runs part_value].
  destruct (starts_with_literal rest), (coalesce_runs rest) as [|[s'|o'] r']; cbn; eauto.
Qed.

Lemma starts_with_literal_true rest :
  starts_with_literal rest = true → ∃ s rest', rest = LiteralPart s :: rest'.
Proof. destruct rest as [|[s|o] rest']; [done| |done]. eauto. Qed.

Lemma coalesce_runs_objects parts :
  objects_of (coalesce_runs parts) = part_objects parts.
Proof.
  unfold objects_of, part_objects.
  induction parts as [|part rest IH]; [done|].
  cbn [coalesce_runs omap list_omap]. rewrite <- IH.
  by destruct (part_value part) as [s|o], (starts_with_literal rest),
    (coalesce_runs rest) as [|[s'|o'] r'].
Qed.

Lemma coalesce_runs_text parts : result_text (coalesce_runs parts) = joined_text parts.
Proof.
  unfold result_text, joined_text.
  induction parts as [|part rest IH]; [done|].
  cbn [coalesce_runs foldr]. rewrite <- IH. unfold part_text.
  destruct (part_value part) as [s|o], (starts_with_literal rest),
    (coalesce_runs rest) as [|[s'|o'] r']; cbn [before foldr]; try done.
  by rewrite string_app_assoc.
Qed.

(** A string followed by literal parts only: one string, the joined
    text. *)
Lemma coalesce_runs_literals rest :
  forallb is_literal rest = true → rest ≠ [] →
  coalesce_runs rest = [inl (joined_text rest)].
Proof.
  induction rest as [|[s|o] rest IH]; intros Hall Hne; [done| |done].
  cbn in Hall. cbn [coalesce_runs joined_text foldr part_value].
  unfold part_text. cbn [part_value]. destruct rest as [|q rest'].
  - cbn. by rewrite string_app_nil_r.
  - rewrite (IH Hall) by done. destruct q; [done|]. by cbn in Hall.
Qed.

Lemma coalesce_runs_single parts :
  single_run parts = true → parts ≠ [] →
  coalesce_runs parts = [inl (joined_text parts)].
Proof.
  destruct parts as [|part rest]; [done|]. intros Hrun _.
  cbn [single_run] in Hrun. apply andb_prop in Hrun as [Hstr Hall].
  cbn [coalesce_runs joined_text foldr]. unfold string_valued, part_text in *.
  destruct (part_value part) as [s|o]; [|done].
  destruct rest as [|q rest'].
  - cbn. by rewrite string_app_nil_r.
  - rewrite (coalesce_runs_literals _ Hall) by done. destruct q; [done|]. by cbn in Hall.
Qed.

Lemma coalesce_runs_nonempty part rest : (1 ≤ length (coalesce_runs (part :: rest)))%nat.
Proof.
  cbn [coalesce_runs].
  destruct (before_cons (part_value part) (starts_with_literal rest) (coalesce_runs rest))
    as (v' & r' & ->).
  cbn. lia.
Qed.

(** A part that is no literal after the first: two or more elements. *)
Lemma coalesce_runs_after_first part rest :
  forallb is_literal rest = false → (2 ≤ length (coalesce_runs (part :: rest)))%nat.
Proof.
  revert part. induction rest as [|q rest IH]; intros part Hobj; [done|].
  cbn [coalesce_runs].
  pose proof (coalesce_runs_nonempty q rest) as Hne.
  destruct (part_value part) as [s|o]; [destruct q as [u|o']|].
  - cbn in Hobj. specialize (IH (LiteralPart u) Hobj).
    destruct (coalesce_runs_literal_first u rest) as (t & r & E).
    cbn [coalesce_runs] in E, IH. cbn [starts_with_literal is_literal].
    rewrite E in IH |- *. cbn in IH |- *. lia.
  - cbn [starts_with_literal is_literal before coalesce_runs length] in Hne |- *. lia.
  - cbn [coalesce_runs] in Hne.
    destruct (starts_with_literal (q :: rest)); cbn [before length]; lia.
Qed.

Lemma coalesce_runs_length parts :
  single_run parts = false → (2 ≤ length parts)%nat →
  (2 ≤ length (coalesce_runs parts))%nat.
Proof.
  destruct parts as [|part [|q rest]]; [done|cbn; lia|]. intros Hrun _.
  cbn [single_run] in Hrun. apply andb_false_iff in Hrun as [Hstr|Hobj].
  - pose proof (coalesce_runs_nonempty q rest) as Hne.
    cbn [coalesce_runs] in Hne |- *. unfold string_valued in Hstr.
    destruct (part_value part) as [s|o]; [done|].
    destruct (starts_with_literal (q :: rest)); cbn [before length]; lia.
  - by apply coalesce_runs_after_first.
Qed.

(** When no object part has a string for its value, the strings of the
    result are the runs of literal parts. *)
Lemma single_run_literals parts :
  existsb string_object parts = false → single_run parts = forallb is_literal parts.
Proof.
  destruct parts as [|part rest]; [done|]. intros Hno.
  cbn [existsb single_run forallb] in Hno |- *.
  apply orb_false_iff in Hno as [Hpart _]. f_equal.
  destruct part as [s|o]; [done|]. apply Hpart.
Qed.

Lemma coalesce_runs_no_adjacent_strings parts :
  existsb string_object parts = false → no_adjacent_strings (coalesce_runs parts).
Proof.
  induction parts as [|part rest IH]; intros Hno; [done|].
  cbn [existsb] in Hno. apply orb_false_iff in Hno as [Hpart Hrest].
  specialize (IH Hrest). cbn [coalesce_runs].
  destruct (part_value part) as [s|o] eqn:Ev.
  - destruct rest as [|[u|o'] rest'].
    + done.
    + destruct (coalesce_runs_literal_first u rest') as (t & r & E).
      rewrite E in IH |- *. cbn [starts_with_literal is_literal before].
      cbn in IH |- *. by destruct r as [|[] ?].
    + cbn [existsb] in Hrest. apply orb_false_iff in Hrest as [Ho' _].
      unfold string_object, string_valued in Ho'. cbn [is_literal negb andb] in Ho'.
      cbn [starts_with_literal is_literal before].
      cbn [coalesce_runs] in IH |- *.
      destruct (part_value (ObjectPart o')) as [?|o'']; [done|].
      destruct (starts_with_literal rest'); cbn [before] in IH |- *; done.
  - destruct (starts_with_literal rest); cbn [before].
    + cbn. by destruct (coalesce_runs rest).
    + cbn. by destruct (coalesce_runs rest).
Qed.

(** No literal part directly after a string: nothing is appended. *)
Lemma coalesce_runs_precoalesced parts :
  no_literal_after_string parts → coalesce_runs parts = part_value <$> parts.
Proof.
  induction parts as [|part rest IH]; intros Hpre; [done|].
  cbn [coalesce_runs fmap list_fmap]. destruct rest as [|[u|o] rest'].
  - by destruct (part_value part).
  - destruct Hpre as [Hstr Hpre]. rewrite (IH Hpre).
    unfold string_valued in Hstr. by destruct (part_value part).
  - cbn in Hpre. rewrite (IH Hpre). cbn [starts_with_literal is_literal].
    by destruct (part_value part).
Qed.

Lemma precoalesced_not_single parts :
  no_literal_after_string parts → (2 ≤ length parts)%nat → single_run parts = false.
Proof.
  destruct parts as [|part [|[u|o] rest]]; [cbn; lia|cbn; lia| |].
  - intros [Hstr _] _. cbn [single_run]. by rewrite Hstr.
  - intros _ _. cbn [single_run forallb is_literal]. apply andb_false_r.
Qed.

(** The value of [format] on every part sequence. *)
Lemma format_parts_eq parts :
  format_parts parts
  = match parts with
    | [part] => match part_value part with inl s => FString s | inr o => FObject o end
    | _ =>
        if single_run parts then FString (joined_text parts)
        else FArray (coalesce_runs parts)
    end.
Proof.
  destruct parts as [|p [|q rest]]; [done|done|].
  unfold format_parts. rewrite reduce_coalesce_runs.
  destruct (single_run (p :: q :: rest)) eqn:Hall.
  - rewrite coalesce_runs_single by done.
    generalize (joined_text (p :: q :: rest)). intros t. cbn.
    unfold Js.truthy_string. by destruct (String.eqb_spec t "") as [->|].
  - pose proof (coalesce_runs_length _ Hall ltac:(cbn; lia)).
    rewrite decide_False by lia. done.
Qed.

End format_facts.

(** ** [format] *)

(** C4, as stated, fails: for a part sequence that is not a single part
    [format] need not return a sequence.  For no parts it returns the empty
    string, and for two literal parts it returns the one coalesced
    string. *)
Lemma format_not_always_a_sequence :
  @format_parts Z unit literal_interpreter [] = FString ""
  ∧ @format_parts Z unit literal_interpreter [LiteralPart "a"; LiteralPart "b"]
    = FString "ab".
Proof. split; reflexivity. Qed.

(** The test of the [reduce] is on the type of the last element, not on
    the type of the part it came from: a literal after an object part
    whose value is the string [x] is appended to that string, and a
    string-valued object part after a literal is an element of its own. *)
Lemma format_string_valued_object :
  @format_parts _ _ parts_interpreter text_then_literal = FString "xa"
  ∧ @format_parts _ _ parts_interpreter [LiteralPart "a"; ObjectPart (RichText "x")]
    = FArray [inl "a"; inl "x"]
  ∧ @format_parts _ _ parts_interpreter [ObjectPart (RichText "x")] = FString "x".
Proof. repeat split; reflexivity. Qed.

Section format_claims.
Context `{Memo.Host} {T Values : Type} `{!Interpreter T Values}.

(** C4, amended: [format] returns the bare value of the part when
    [formatToParts] yields exactly one part.  Otherwise it appends the text
    of every literal part to the element before it when that element is a
    string (the text of literal parts, or the value of an object part that
    is itself a string) and keeps every other part value as an element of
    its own, in order: the values that are no strings are all kept, and the
    strings of the result spell the strings of the parts.  When the first
    part has a string value and all later parts are literal, and when
    there is no part, it returns one bare string, the joined text (empty
    for no parts); else it returns the sequence, which then has two or
    more elements.  When no object part has a string for its value, the
    bare string is returned exactly when all parts are literal, and no two
    neighbours of the sequence are both strings: every run of adjacent
    literal parts has become one string. *)
Theorem format_coalesces (w : World) (this : IntlMessageFormat)
    (values : option Values) (parts : list (MessageFormatPart T)) :
  formatToParts w this values = inr parts →
  format w this values
  = inr (match parts with
         | [part] =>
             match part_value part with inl s => FString s | inr o => FObject o end
         | _ =>
             if single_run parts then FString (joined_text parts)
             else FArray (coalesce_runs parts)
         end)
  ∧ objects_of (coalesce_runs parts) = part_objects parts
  ∧ result_text (coalesce_runs parts) = joined_text parts
  ∧ (single_run parts = false → 2 ≤ length parts →
     2 ≤ length (coalesce_runs parts))%nat
  ∧ (existsb string_object parts = false →
     single_run parts = forallb is_literal parts
     ∧ no_adjacent_strings (coalesce_runs parts)).
Proof.
  intros Hparts. split; [|split; [|split; [|split]]].
  - unfold format. rewrite Hparts. f_equal. apply format_parts_eq.
  - apply coalesce_runs_objects.
  - apply coalesce_runs_text.
  - apply coalesce_runs_length.
  - intros Hno. split.
    + by apply single_run_literals.
    + by apply coalesce_runs_no_adjacent_strings.
Qed.

(** C10: when [formatToParts] returns no parts, [format] returns the
    empty string. *)
Theorem format_no_parts (w : World) (this : IntlMessageFormat) (values : option Values) :
  formatToParts w this values = inr [] → format w this values = inr (FString "").
Proof. intros Hparts. unfold format. by rewrite Hparts. Qed.

End format_claims.

(** ** The constructor *)

Section constructor_claims.
Context `{Memo.Host}.

Lemma new_IntlMessageFormat_parse_world (locales : option Locales) (w : World) :
  Static.__parse
    (statics (match locales with
              | Some l => (l, w)
              | None => let '(l, w') := defaultLocale w in (LocaleTag l, w')
              end).2)
  = Static.__parse (statics w).
Proof.
  destruct locales as [l|]; [done|]. unfold defaultLocale.
  destruct (Static.memoizedDefaultLocale (statics w)) as [l|]; [|done].
  by destruct (Js.truthy_string l).
Qed.

(** C2, amended: the constructor accepts every array of nodes, the
    empty one included, and every string the parser accepts; it checks no
    more of the message than that it is an array.  It throws the
    [TypeError] "A message must be provided as a String or AST." for a
    value that is neither a string nor an array, the [TypeError] of the
    unset parser for a string when no parser is set, and what the parser
    throws when the parser rejects the string. *)
Theorem constructor_accepts (msg : Message) (locales : option Locales)
    (overrideFormats : option loc) (opts : option Options.t) (w : World) :
  let r := (new_IntlMessageFormat msg locales overrideFormats opts w).1 in
  match msg with
  | MessageValue (AstArray els) =>
      ∃ this, r = inr this ∧ ast this = els ∧ message this = None
  | MessageValue NotAnArray =>
      r = inl (TypeError "A message must be provided as a String or AST.")
  | MessageString s =>
      match Static.__parse (statics w) with
      | None =>
          r = inl (TypeError
            "IntlMessageFormat.__parse must be set to process `message` of type `string`")
      | Some parse =>
          match parse s {| ignoreTag := opts ≫= Options.ignoreTag |} with
          | inl e => r = inl e
          | inr els => ∃ this, r = inr this ∧ ast this = els ∧ message this = Some s
          end
      end
  end.
Proof.
  intros r. subst r. unfold new_IntlMessageFormat.
  pose proof (new_IntlMessageFormat_parse_world locales w) as Hparse.
  destruct (match locales with
            | Some l => (l, w)
            | None => let '(l, w') := defaultLocale w in (LocaleTag l, w')
            end) as [L w1].
  cbn [snd] in Hparse. destruct msg as [s|[els|]]; cbn [parse_message].
  - rewrite Hparse. destruct (Static.__parse (statics w)) as [parse|]; [|done].
    destruct (parse s _) as [e|els]; [done|].
    destruct (Ref.mergeConfigs _ _ _) as [f h]. by eexists.
  - destruct (Ref.mergeConfigs _ _ _) as [f h]. by eexists.
  - done.
Qed.

(** C9: with the static parser reference unset, constructing from a
    string throws the [TypeError], yields no instance and allocates no
    configuration object; constructing from a pre-parsed value never reads
    the parser reference: the outcome is the same whatever it is set
    to. *)
Theorem constructor_parser_unset (s : string) (locales : option Locales)
    (overrideFormats : option loc) (opts : option Options.t) (w : World) :
  Static.__parse (statics w) = None →
  (let '(r, w') := new_IntlMessageFormat (MessageString s) locales overrideFormats opts w in
   r = inl (TypeError
         "IntlMessageFormat.__parse must be set to process `message` of type `string`")
   ∧ heap w' = heap w)
  ∧ ∀ (v : AstValue) (p : option Parser),
      new_IntlMessageFormat (MessageValue v) locales overrideFormats opts (set_parse p w)
      = (let '(r, w') :=
           new_IntlMessageFormat (MessageValue v) locales overrideFormats opts w in
         (r, set_parse p w')).
Proof.
  intros Hunset. split.
  - unfold new_IntlMessageFormat.
    pose proof (new_IntlMessageFormat_parse_world locales w) as Hparse.
    assert (heap (match locales with
                  | Some l => (l, w)
                  | None => let '(l, w') := defaultLocale w in (LocaleTag l, w')
                  end).2 = heap w) as Hheap.
    { destruct locales as [l|]; [done|]. unfold defaultLocale.
      destruct (Static.memoizedDefaultLocale (statics w)) as [l|]; [|done].
      by destruct (Js.truthy_string l). }
    destruct (match locales with
              | Some l => (l, w)
              | None => let '(l, w') := defaultLocale w in (LocaleTag l, w')
              end) as [L w1].
    cbn [snd] in Hparse, Hheap. cbn [parse_message].
    by rewrite Hparse, Hunset.
  - intros v p. unfold new_IntlMessageFormat.
    destruct locales as [l|].
    + cbn [parse_message]. destruct v as [els|]; [|done].
      cbn [set_parse statics heap Static.formats].
      by destruct (Ref.mergeConfigs _ _ _) as [f h].
    + unfold defaultLocale. cbn [set_parse statics Static.memoizedDefaultLocale].
      destruct (Static.memoizedDefaultLocale (statics w)) as [l|];
        [destruct (Js.truthy_string l)|];
        cbn [parse_message]; (destruct v as [els|]; [|done]);
        cbn [set_parse set_memoizedDefaultLocale statics heap Static.formats];
        by destruct (Ref.mergeConfigs _ _ _) as [f h].
Qed.

(** C8: [resolvedOptions] reports as [locale] the first of the
    locales that the host's [supportedLocalesOf] returns for the locale
    list the instance stores, which is the list the constructor was
    given. *)
Theorem resolvedOptions_primary_locale (this : IntlMessageFormat)
    (supported : list string) :
  Memo.supportedLocalesOf (locales this) = inr supported →
  resolvedOptions this = inr {| locale := head supported |}
  ∧ ∀ msg L overrideFormats opts w that w',
      new_IntlMessageFormat msg (Some L) overrideFormats opts w = (inr that, w') →
      locales that = L.
Proof.
  intros Hsup. split.
  - unfold resolvedOptions. rewrite Hsup. by rewrite head_lookup.
  - intros msg L ov opts w that w'. unfold new_IntlMessageFormat.
    destruct (parse_message msg opts w) as [e|[m [els|]]]; [done| |done].
    destruct (Ref.mergeConfigs _ _ _) as [f h]. by intros [= <- _].
Qed.

End constructor_claims.

(** C2, as stated, fails: the constructor accepts the empty node
    sequence. *)
Lemma constructor_accepts_empty_ast :
  (@new_IntlMessageFormat example_host (MessageValue (AstArray []))
     (Some (LocaleTag "en")) None None (initial_world (Some literal_parser))).1
  = inr {| ast := []; locales := LocaleTag "en";
           formatters := @Memo.createDefaultFormatters example_host;
           formats := 1%positive; message := None;
           formatterCache := Memo.empty_cache |}.
Proof. vm_compute. reflexivity. Qed.

(** ** The formatter cache *)

Section cache_facts.
Context `{Memo.Host}.
Import Memo.

Lemma cache_inv_initial n : cache_inv (initial n).
Proof.
  split.
  - intros [] key o Hs; unfold stored in Hs; cbn in Hs; by rewrite lookup_empty in Hs.
  - intros [] key1 o1 k2 key2 o2 Hs; unfold stored in Hs; cbn in Hs;
      by rewrite lookup_empty in Hs.
Qed.

Lemma get_Own {V} (store : gmap string V) (key : string) (v : V) :
  get createFastMemoizeCache key store = Some (Own v) ↔ store !! key = Some v.
Proof.
  cbn [get createFastMemoizeCache]. destruct (store !! key) as [v'|]; [naive_solver|].
  by destruct (inherited key).
Qed.

Lemma get_None {V} (store : gmap string V) (key : string) :
  get createFastMemoizeCache key store = None → store !! key = None.
Proof. cbn [get createFastMemoizeCache]. by destruct (store !! key). Qed.

(** One call of a factory: a hit returns what the store holds and
    changes nothing; a miss constructs an object with the next identity
    and stores it under the key of the arguments, unless the constructor
    throws. *)
Lemma getter_spec (k : Kind) (a : Args) (st : State) :
  let '(r, st') := getter createDefaultFormatters k a st in
  match get createFastMemoizeCache (serialize a) (store_of k (cache st)) with
  | Some m => r = inr m ∧ st' = st
  | None =>
      match intl_check k a with
      | Some e => r = inl e ∧ st' = st
      | None =>
          let o := {| obj_id := next_id st; obj_kind := k; obj_args := a |} in
          r = inr (Own o)
          ∧ next_id st' = Pos.succ (next_id st)
          ∧ ∀ k' key,
              store_of k' (cache st') !! key
              = if decide (k' = k ∧ key = serialize a) then Some o
                else store_of k' (cache st) !! key
      end
  end.
Proof.
  destruct st as [[sn sd sp] n].
  destruct k; cbn [getter createDefaultFormatters getNumberFormat getDateTimeFormat
                   getPluralRules cache next_id number dateTime pluralRules store_of];
    unfold memoizeIntl, construct.
  - destruct (get createFastMemoizeCache (serialize a) sn) as [m|] eqn:E; [done|].
    destruct (intl_check NumberFormat a) as [e|]; [done|].
    split; [done|]. split; [done|]. intros k' key.
    cbn [cache next_id Memo.set createFastMemoizeCache].
    destruct (decide (k' = NumberFormat ∧ key = serialize a)) as [[-> ->]|Hne].
    + cbn. apply lookup_insert_eq.
    + destruct k'; cbn; [|done..]. apply lookup_insert_ne. naive_solver.
  - destruct (get createFastMemoizeCache (serialize a) sd) as [m|] eqn:E; [done|].
    destruct (intl_check DateTimeFormat a) as [e|]; [done|].
    split; [done|]. split; [done|]. intros k' key.
    cbn [cache next_id Memo.set createFastMemoizeCache].
    destruct (decide (k' = DateTimeFormat ∧ key = serialize a)) as [[-> ->]|Hne].
    + cbn. apply lookup_insert_eq.
    + destruct k'; cbn; [done| |done]. apply lookup_insert_ne. naive_solver.
  - destruct (get createFastMemoizeCache (serialize a) sp) as [m|] eqn:E; [done|].
    destruct (intl_check PluralRules a) as [e|]; [done|].
    split; [done|]. split; [done|]. intros k' key.
    cbn [cache next_id Memo.set createFastMemoizeCache].
    destruct (decide (k' = PluralRules ∧ key = serialize a)) as [[-> ->]|Hne].
    + cbn. apply lookup_insert_eq.
    + destruct k'; cbn; [done..|]. apply lookup_insert_ne. naive_solver.
Qed.

(** What a call that returns leaves behind. *)
Lemma getter_step (k : Kind) (a : Args) (st st' : State)
    (r : Error + Member IntlObject) :
  getter createDefaultFormatters k a st = (r, st') →
  cache_inv st →
  cache_inv st'
  ∧ (∀ k' key o, stored st k' key o → stored st' k' key o)
  ∧ (∀ o, r = inr (Own o) → stored st' k (serialize a) o).
Proof.
  intros Hget [Hold Hinj]. pose proof (getter_spec k a st) as Hspec.
  rewrite Hget in Hspec.
  destruct (get createFastMemoizeCache (serialize a) (store_of k (cache st)))
    as [m|] eqn:Ehit.
  { destruct Hspec as [-> ->]. split; [done|]. split; [done|].
    intros o [= ->]. by apply get_Own in Ehit. }
  apply get_None in Ehit.
  destruct (intl_check k a) as [e|].
  { destruct Hspec as [-> ->]. split; [done|]. split; [done|]. done. }
  cbv zeta in Hspec. destruct Hspec as (-> & Hnext & Hstore).
  set (o := {| obj_id := next_id st; obj_kind := k; obj_args := a |}) in *.
  assert (∀ k' key o', stored st' k' key o' →
            (k' = k ∧ key = serialize a ∧ o' = o) ∨ stored st k' key o') as Hcases.
  { intros k' key o'. unfold stored. rewrite Hstore.
    case_decide as Hd; [|by right]. intros [= <-]. left. naive_solver. }
  split; [split|split].
  - intros k' key o' [(-> & -> & ->)|Hs]%Hcases.
    + rewrite Hnext. cbn. split; [lia|done].
    + destruct (Hold _ _ _ Hs) as (? & ? & ?). rewrite Hnext. split; [lia|done].
  - intros k1 key1 o1 k2 key2 o2 [(-> & -> & ->)|Hs1]%Hcases [(-> & -> & ->)|Hs2]%Hcases Hid.
    + done.
    + destruct (Hold _ _ _ Hs2) as (? & ? & ?). cbn in Hid. lia.
    + destruct (Hold _ _ _ Hs1) as (? & ? & ?). cbn in Hid. lia.
    + by eapply Hinj.
  - intros k' key o' Hs. unfold stored. rewrite Hstore.
    rewrite decide_False; [done|]. intros [-> ->]. unfold stored in Hs. congruence.
  - intros o' [= <-]. unfold stored. rewrite Hstore. by rewrite decide_True.
Qed.

(** Every instance a run of calls returned is, in the final state,
    stored under the key of the arguments of its call. *)
Lemma run_stored (calls : list (Kind * Args)) (st : State) :
  cache_inv st →
  let '(rs, st') := run calls st in
  cache_inv st'
  ∧ (∀ k key o, stored st k key o → stored st' k key o)
  ∧ (∀ i k a o, calls !! i = Some (k, a) → rs !! i = Some (inr (Own o)) →
                stored st' k (serialize a) o).
Proof.
  revert st. induction calls as [|[k a] calls IH]; intros st Hinv; cbn [run].
  - split; [done|]. split; [done|]. intros i k a o Hi. by rewrite lookup_nil in Hi.
  - destruct (getter createDefaultFormatters k a st) as [r st1] eqn:Hget.
    destruct (getter_step _ _ _ _ _ Hget Hinv) as (Hinv1 & Hmono1 & Hres1).
    specialize (IH st1 Hinv1). destruct (run calls st1) as [rs st2].
    destruct IH as (Hinv2 & Hmono2 & Hres2).
    split; [done|]. split; [by eauto|].
    intros [|i] k' a' o Hcall Hr; cbn in Hcall, Hr.
    + injection Hcall as [= <- <-]. injection Hr as [= ->]. by eauto.
    + by eauto.
Qed.

(** Two calls of one kind on one cache return the same object exactly
    when their arguments have the same cache key. *)
Lemma cache_same_instance_iff_same_key (calls : list (Kind * Args)) (n : positive)
    (i j : nat) (k : Kind) (a1 a2 : Args) (o1 o2 : IntlObject) :
  calls !! i = Some (k, a1) → calls !! j = Some (k, a2) →
  (run calls (initial n)).1 !! i = Some (inr (Own o1)) →
  (run calls (initial n)).1 !! j = Some (inr (Own o2)) →
  (serialize a1 = serialize a2 → o1 = o2)
  ∧ (obj_id o1 = obj_id o2 → serialize a1 = serialize a2).
Proof.
  intros Hi Hj Hr1 Hr2.
  pose proof (run_stored calls (initial n) (cache_inv_initial n)) as Hrun.
  destruct (run calls (initial n)) as [rs st']. cbn [fst] in Hr1, Hr2.
  destruct Hrun as ([Hold Hinj] & _ & Hres).
  pose proof (Hres _ _ _ _ Hi Hr1) as Hs1. pose proof (Hres _ _ _ _ Hj Hr2) as Hs2.
  split.
  - intros Hkey. unfold stored in Hs1, Hs2. rewrite Hkey in Hs1. congruence.
  - intros Hid. by destruct (Hinj _ _ _ _ _ _ Hs1 Hs2 Hid).
Qed.


(** The claim as the specification has it holds of a serializer that is
    canonical: one that gives two argument lists the same key exactly when
    they are structurally equal. *)
Lemma cache_instance_identity_canonical (calls : list (Kind * Args)) (n : positive)
    (i j : nat) (k : Kind) (a1 a2 : Args) (o1 o2 : IntlObject) :
  (∀ a b, deep_equal a b ↔ serialize a = serialize b) →
  calls !! i = Some (k, a1) → calls !! j = Some (k, a2) →
  (run calls (initial n)).1 !! i = Some (inr (Own o1)) →
  (run calls (initial n)).1 !! j = Some (inr (Own o2)) →
  (deep_equal a1 a2 → o1 = o2) ∧ (¬ deep_equal a1 a2 → obj_id o1 ≠ obj_id o2).
Proof.
  intros Hser Hi Hj Hr1 Hr2.
  destruct (cache_same_instance_iff_same_key calls n i j k a1 a2 o1 o2 Hi Hj Hr1 Hr2)
    as [Hsame Hdiff].
  split.
  - intros Heq. by apply Hsame, Hser.
  - intros Hne Hid. by apply Hne, Hser, Hdiff.
Qed.

End cache_facts.

(** ** The merger on objects *)

Section ref_facts.

Lemma alloc_spec {V} (m m' : gmap loc V) (v : V) (l : loc) :
  Ref.alloc m v = (l, m') → m !! l = None ∧ m' = <[l := v]> m.
Proof. intros [= <- <-]. split; [|done]. apply not_elem_of_dom, is_fresh. Qed.

Lemma lookup_deref_Some {V} (m : gmap loc (gmap string V)) (l : loc) (p : string) (x : V) :
  Ref.deref m l !! p = Some x ↔ ∃ obj, m !! l = Some obj ∧ obj !! p = Some x.
Proof.
  unfold Ref.deref, Js.or_empty. destruct (m !! l) as [obj|]; cbn.
  - split; [by eauto|]. by intros (? & [= <-] & ?).
  - rewrite lookup_empty. split; [done|]. by intros (? & ? & ?).
Qed.

Lemma deref_weaken {V} (m m' : gmap loc (gmap string V)) (l : loc) :
  m ⊆ m' → is_Some (m !! l) → Ref.deref m' l = Ref.deref m l.
Proof.
  intros Hsub [obj Hobj]. unfold Ref.deref.
  by rewrite Hobj, (lookup_weaken _ _ _ _ Hobj Hsub).
Qed.

Lemma record_of_weaken (ho ho' : gmap loc OptionsRecord) (field : option loc) :
  ho ⊆ ho' → (∀ l, field = Some l → is_Some (ho !! l)) →
  Ref.record_of ho' field = Ref.record_of ho field.
Proof.
  intros Hsub Hfield. destruct field as [l|]; [|done].
  destruct (Hfield l eq_refl) as [o Ho]. unfold Ref.record_of. cbn.
  by rewrite Ho, (lookup_weaken _ _ _ _ Ho Hsub).
Qed.

Lemma lookup_weaken_None_inv {V} (m m' : gmap loc V) (l : loc) :
  m ⊆ m' → m' !! l = None → m !! l = None.
Proof.
  intros Hsub Hnone. destruct (m !! l) as [v|] eqn:E; [|done].
  by rewrite (lookup_weaken _ _ _ _ E Hsub) in Hnone.
Qed.

(** The [reduce] of [Ref.mergeConfig] from any accumulator: every key of the
    list gets a new record, the spread of the two records of that key;
    nothing else changes. *)
Lemma foldl_preset_step (o1 o2 : gmap string loc) (ks : list string)
    (all0 all : gmap string loc) (ho0 ho' : gmap loc OptionsRecord) :
  foldl (Ref.preset_step o1 o2) (all0, ho0) ks = (all, ho') →
  (∀ p l, o1 !! p = Some l → is_Some (ho0 !! l)) →
  (∀ p l, o2 !! p = Some l → is_Some (ho0 !! l)) →
  ho0 ⊆ ho'
  ∧ (∀ p, p ∈ ks →
       ∃ l, all !! p = Some l ∧ ho0 !! l = None
            ∧ ho' !! l = Some (Js.spread (Ref.record_of ho0 (o1 !! p))
                                         (Ref.record_of ho0 (o2 !! p))))
  ∧ (∀ p, p ∉ ks → all !! p = all0 !! p).
Proof.
  revert all0 ho0. induction ks as [|k ks IH]; intros all0 ho0 Hfold H1 H2.
  - injection Hfold as [= <- <-]. split; [done|]. split; [|done].
    intros p Hp. by apply elem_of_nil in Hp.
  - cbn [foldl] in Hfold. unfold Ref.preset_step at 2 in Hfold.
    destruct (Ref.alloc ho0 _) as [l1 ho1] eqn:Ealloc.
    apply alloc_spec in Ealloc as [Hfresh ->].
    pose proof (insert_subseteq ho0 l1
      (Js.spread (Ref.record_of ho0 (o1 !! k)) (Ref.record_of ho0 (o2 !! k))) Hfresh) as Hsub1.
    apply IH in Hfold as (Hsub & Hin & Hout).
    2,3: intros p l Hp; eapply lookup_weaken_is_Some; [|exact Hsub1]; by eauto.
    split; [by etrans|]. split.
    + intros p Hp. destruct (decide (p ∈ ks)) as [Hks|Hks].
      * destruct (Hin p Hks) as (l & Hl & Hnone & Hval). exists l.
        split; [done|]. split; [by eapply lookup_weaken_None_inv|].
        rewrite Hval. f_equal.
        rewrite !(record_of_weaken ho0 _ _ Hsub1); [done|by eauto..].
      * assert (p = k) as -> by set_solver.
        exists l1. rewrite (Hout k Hks), lookup_insert_eq. split; [done|].
        split; [done|]. eapply lookup_weaken; [|exact Hsub]. apply lookup_insert_eq.
    + intros p Hp. rewrite (Hout p) by set_solver.
      apply lookup_insert_ne. set_solver.
Qed.


Lemma closed_spec (h : Ref.Heap) :
  Ref.closed h
  ↔ (∀ l c p o, Ref.h_categories h !! l = Some c → c !! p = Some o →
                o ∈ dom (Ref.h_options h))
    ∧ (∀ l F k c, Ref.h_formats h !! l = Some F → F !! k = Some c →
                  c ∈ dom (Ref.h_categories h)).
Proof.
  unfold Ref.closed, map_Forall. split; intros [Hc Hf]; split; by eauto.
Qed.

Lemma closed_category_fields (h : Ref.Heap) (c : loc) (p : string) (l : loc) :
  Ref.closed h → Ref.deref (Ref.h_categories h) c !! p = Some l → is_Some (Ref.h_options h !! l).
Proof.
  intros [Hc _]%closed_spec (obj & Hobj & Hp)%lookup_deref_Some.
  apply elem_of_dom. by eapply Hc.
Qed.

Lemma closed_formats_fields (h : Ref.Heap) (d : loc) (k : string) (c : loc) :
  Ref.closed h → Ref.deref (Ref.h_formats h) d !! k = Some c → is_Some (Ref.h_categories h !! c).
Proof.
  intros [_ Hf]%closed_spec (obj & Hobj & Hk)%lookup_deref_Some.
  apply elem_of_dom. by eapply Hf.
Qed.

Lemma extends_refl (h : Ref.Heap) : Ref.extends h h.
Proof. by repeat split. Qed.

Lemma extends_trans (h1 h2 h3 : Ref.Heap) : Ref.extends h1 h2 → Ref.extends h2 h3 → Ref.extends h1 h3.
Proof. intros (? & ? & ?) (? & ? & ?). repeat split; by etrans. Qed.

(** Reading an allocated object of a Ref.closed heap in an extension of it. *)
Lemma read_options_extends (h h' : Ref.Heap) (l : loc) :
  Ref.extends h h' → is_Some (Ref.h_options h !! l) → Ref.read_options h' l = Ref.read_options h l.
Proof. intros (Ho & _ & _) Hl. by apply deref_weaken. Qed.

Lemma read_category_extends (h h' : Ref.Heap) (c : loc) :
  Ref.closed h → Ref.extends h h' → is_Some (Ref.h_categories h !! c) →
  Ref.read_category h' c = Ref.read_category h c.
Proof.
  intros Hclosed Hext Hc. unfold Ref.read_category.
  rewrite (deref_weaken (Ref.h_categories h)); [|apply Hext|done].
  apply map_eq. intros p. rewrite !lookup_fmap.
  destruct (Ref.deref (Ref.h_categories h) c !! p) as [l|] eqn:E; [|done]. cbn. f_equal.
  apply read_options_extends; [done|]. by eapply closed_category_fields.
Qed.

(** [Ref.mergeConfig] with a second argument: the heap it leaves and the
    object it returns. *)
Lemma mergeConfig_Some_spec (c1 c2 : loc) (h h' : Ref.Heap) (l : loc) :
  Ref.closed h → Ref.mergeConfig c1 (Some c2) h = (l, h') →
  Ref.h_formats h' = Ref.h_formats h
  ∧ Ref.h_options h ⊆ Ref.h_options h'
  ∧ Ref.h_categories h !! l = None
  ∧ ∃ obj, Ref.h_categories h' = <[l := obj]> (Ref.h_categories h)
      ∧ ∀ p, match Ref.deref (Ref.h_categories h) c1 !! p with
             | Some l1 =>
                 ∃ ro, obj !! p = Some ro ∧ Ref.h_options h !! ro = None
                       ∧ Ref.h_options h' !! ro
                         = Some (Js.spread (Ref.read_options h l1)
                                   (Ref.record_of (Ref.h_options h)
                                      (Ref.deref (Ref.h_categories h) c2 !! p)))
             | None => obj !! p = Ref.deref (Ref.h_categories h) c2 !! p
             end.
Proof.
  intros Hclosed Hmerge. unfold Ref.mergeConfig in Hmerge.
  set (o1 := Ref.deref (Ref.h_categories h) c1) in *.
  set (o2 := Ref.deref (Ref.h_categories h) c2) in *.
  destruct (Ref.merge_presets o1 o2 (Js.keys o1) (Ref.h_options h)) as [all ho] eqn:Epre.
  destruct (Ref.alloc (Ref.h_categories h) _) as [l' hc] eqn:Ealloc.
  injection Hmerge as [= <- <-]. cbn [Ref.h_formats Ref.h_options Ref.h_categories].
  apply alloc_spec in Ealloc as [Hfresh ->].
  apply foldl_preset_step in Epre as (Hsub & Hin & Hout).
  2,3: intros p l0 Hp; by eapply closed_category_fields.
  split; [done|]. split; [done|]. split; [done|].
  eexists. split; [done|]. intros p.
  rewrite !lookup_spread. destruct (o1 !! p) as [l1|] eqn:E1.
  - destruct (Hin p) as (ro & Hro & Hnone & Hval).
    { apply elem_of_keys. by rewrite E1. }
    exists ro. rewrite Hro. split; [done|]. split; [done|].
    rewrite Hval, E1. done.
  - rewrite (Hout p), lookup_empty; [by destruct (o2 !! p)|]. by apply not_elem_of_keys.
Qed.


Lemma or_empty_Some {V} (o : gmap string V) : Js.or_empty (Some o) = o.
Proof. done. Qed.

Lemma deref_insert_eq {V} (m : gmap loc (gmap string V)) (l : loc) (obj : gmap string V) :
  Ref.deref (<[l := obj]> m) l = obj.
Proof. unfold Ref.deref. by rewrite lookup_insert_eq. Qed.

Lemma lookup_read_category (h : Ref.Heap) (c : loc) (p : string) :
  Ref.read_category h c !! p
  = Ref.read_options h <$> Ref.deref (Ref.h_categories h) c !! p.
Proof. apply lookup_fmap. Qed.

Lemma lookup_read_formats (h : Ref.Heap) (d : loc) (k : string) :
  Ref.read_formats h d !! k
  = Ref.read_category h <$> Ref.deref (Ref.h_formats h) d !! k.
Proof. apply lookup_fmap. Qed.

Lemma record_of_read (h : Ref.Heap) (field : option loc) :
  Ref.record_of (Ref.h_options h) field = Js.or_empty (Ref.read_options h <$> field).
Proof. by destruct field. Qed.

Lemma mergeConfig_spec (c1 : loc) (oc2 : option loc) (h h' : Ref.Heap) (l : loc) :
  Ref.closed h → is_Some (Ref.h_categories h !! c1) →
  Ref.mergeConfig c1 oc2 h = (l, h') →
  Ref.extends h h' ∧ Ref.closed h' ∧ Ref.h_formats h' = Ref.h_formats h
  ∧ merged_category h h' c1 oc2 l.
Proof.
  intros Hclosed Hc1 Hmerge. destruct oc2 as [c2|]; cycle 1.
  { injection Hmerge as [= <- <-]. split; [apply extends_refl|].
    split; [done|]. split; [done|]. by repeat split. }
  destruct (mergeConfig_Some_spec _ _ _ _ _ Hclosed Hmerge)
    as (Hfmt & Hopts & Hfresh & obj & Hcats & Hobj).
  assert (Ref.extends h h') as Hext.
  { split; [done|]. split; [|by rewrite Hfmt].
    rewrite Hcats. by apply insert_subseteq. }
  split; [done|]. split; [|split; [done|]].
  - apply closed_spec in Hclosed as [Hc Hf]. apply closed_spec. split.
    + intros l0 c p o. rewrite Hcats. intros Hl0 Hp.
      destruct (decide (l = l0)) as [->|Hne].
      * rewrite lookup_insert_eq in Hl0. injection Hl0 as [= <-].
        specialize (Hobj p).
        destruct (Ref.deref (Ref.h_categories h) c1 !! p) as [l1|].
        -- destruct Hobj as (ro & Hro & _ & Hval).
           apply elem_of_dom. rewrite Hro in Hp. injection Hp as [= <-]. by eexists.
        -- rewrite Hobj in Hp. apply lookup_deref_Some in Hp as (o2 & Ho2 & Hp).
           eapply (subseteq_dom _ _ Hopts), Hc; by eauto.
      * rewrite lookup_insert_ne in Hl0 by done.
        eapply (subseteq_dom _ _ Hopts), Hc; by eauto.
    + intros l0 F k c. rewrite Hfmt. intros Hl0 Hk.
      apply (subseteq_dom (Ref.h_categories h)); [apply Hext|]. by eapply Hf.
  - split; [by rewrite Hcats, lookup_insert_eq|]. split.
    + change (Ref.read_category h <$> Some c2) with (Some (Ref.read_category h c2)).
      apply map_eq. intros p.
      rewrite lookup_mergeConfig_Some, !lookup_read_category, Hcats, deref_insert_eq.
      specialize (Hobj p).
      destruct (Ref.deref (Ref.h_categories h) c1 !! p) as [l1|].
      * destruct Hobj as (ro & -> & _ & Hval). cbn. f_equal.
        unfold Ref.read_options at 1, Ref.deref. rewrite Hval, or_empty_Some.
        by rewrite record_of_read.
      * rewrite Hobj. cbn.
        destruct (Ref.deref (Ref.h_categories h) c2 !! p) as [l2|] eqn:E2; [|done].
        cbn. f_equal. apply read_options_extends; [done|].
        by eapply closed_category_fields.
    + split; [done|]. intros p ro.
      rewrite Hcats, deref_insert_eq.
      intros Hp. specialize (Hobj p).
      destruct (Ref.deref (Ref.h_categories h) c1 !! p) as [l1|].
      * destruct Hobj as (ro' & Hro' & Hnone & _). left. congruence.
      * right. split; [done|]. congruence.
Qed.


(** [merged_category] from an earlier heap, and in a later heap. *)
Lemma merged_category_base (h0 h1 h2 : Ref.Heap) (c1 : loc) (oc2 : option loc) (l : loc) :
  Ref.closed h0 → Ref.extends h0 h1 →
  is_Some (Ref.h_categories h0 !! c1) →
  (∀ c2, oc2 = Some c2 → is_Some (Ref.h_categories h0 !! c2)) →
  merged_category h1 h2 c1 oc2 l → merged_category h0 h2 c1 oc2 l.
Proof.
  intros Hclosed Hext Hc1 Hc2 (Hl & Hread & Hshare).
  pose proof Hext as (Ho & Hc & _).
  split; [done|]. split.
  - rewrite Hread. f_equal; [by apply read_category_extends|].
    destruct oc2 as [c2|]; [|done]. cbn. f_equal. apply read_category_extends; by eauto.
  - destruct oc2 as [c2|]; [|done]. destruct Hshare as [Hfresh Hfields].
    split; [by eapply lookup_weaken_None_inv|]. intros p ro Hp.
    destruct (Hfields p ro Hp) as [Hnew|[Hno1 Hin2]].
    + left. by eapply lookup_weaken_None_inv.
    + right. rewrite <- (deref_weaken _ _ c1 Hc Hc1).
      by rewrite <- (deref_weaken _ _ c2 Hc (Hc2 c2 eq_refl)).
Qed.

Lemma merged_category_frame (h0 h1 h2 : Ref.Heap) (c1 : loc) (oc2 : option loc) (l : loc) :
  Ref.closed h1 → Ref.extends h1 h2 →
  merged_category h0 h1 c1 oc2 l → merged_category h0 h2 c1 oc2 l.
Proof.
  intros Hclosed Hext (Hl & Hread & Hshare). pose proof Hext as (Ho & Hc & _).
  split; [by eapply lookup_weaken_is_Some|]. split.
  - by rewrite read_category_extends with (h := h1).
  - destruct oc2 as [c2|]; [|done]. destruct Hshare as [Hfresh Hfields].
    split; [done|]. intros p ro. rewrite (deref_weaken _ _ l Hc Hl). apply Hfields.
Qed.

(** The [reduce] of [mergeConfigs] from any accumulator. *)
Lemma foldl_category_step (D O : gmap string loc) (ks : list string)
    (all0 all : gmap string loc) (h0 h' : Ref.Heap) :
  foldl (Ref.category_step D O) (all0, h0) ks = (all, h') →
  Ref.closed h0 →
  (∀ k c, D !! k = Some c → is_Some (Ref.h_categories h0 !! c)) →
  (∀ k c, O !! k = Some c → is_Some (Ref.h_categories h0 !! c)) →
  Ref.extends h0 h' ∧ Ref.closed h' ∧ Ref.h_formats h' = Ref.h_formats h0
  ∧ (∀ k c1, k ∈ ks → D !! k = Some c1 →
       ∃ l, all !! k = Some l ∧ merged_category h0 h' c1 (O !! k) l)
  ∧ (∀ k, k ∉ ks ∨ D !! k = None → all !! k = all0 !! k).
Proof.
  revert all0 h0. induction ks as [|k ks IH]; intros all0 h0 Hfold Hclosed HD HO.
  - injection Hfold as [= <- <-]. split; [apply extends_refl|].
    split; [done|]. split; [done|]. split; [|done].
    intros k c1 Hk. by apply elem_of_nil in Hk.
  - cbn [foldl] in Hfold. unfold Ref.category_step at 2 in Hfold.
    destruct (D !! k) as [c1|] eqn:EDk.
    + destruct (Ref.mergeConfig c1 (O !! k) h0) as [l1 h1] eqn:Emerge.
      apply mergeConfig_spec in Emerge as (Hext1 & Hclosed1 & Hfmt1 & Hm1);
        [|done|by eauto].
      pose proof Hext1 as (_ & Hc1 & _).
      apply IH in Hfold as (Hext & Hclosed' & Hfmt & Hin & Hout); [|done|..].
      2,3: intros k' c Hk'; eapply lookup_weaken_is_Some; [|exact Hc1]; by eauto.
      split; [by eapply extends_trans|]. split; [done|].
      split; [by rewrite Hfmt|]. split.
      * intros k' c1' Hk' HDk'. destruct (decide (k' ∈ ks)) as [Hks|Hks].
        -- destruct (Hin k' c1' Hks HDk') as (l & Hl & Hm). exists l. split; [done|].
           apply (merged_category_base h0 h1 h' _ _ _ Hclosed Hext1); [by eauto| |done].
           intros c2 Hc2. by eauto.
        -- assert (k' = k) as -> by set_solver.
           assert (c1' = c1) as -> by congruence.
           exists l1. rewrite Hout by auto. rewrite lookup_insert_eq. split; [done|].
           exact (merged_category_frame h0 h1 h' _ _ _ Hclosed1 Hext Hm1).
      * intros k' Hk'. rewrite Hout by (destruct Hk'; [left; set_solver|by right]).
        apply lookup_insert_ne. intros <-. destruct Hk' as [Hk'|Hk']; [set_solver|congruence].
    + apply IH in Hfold as (Hext & Hclosed' & Hfmt & Hin & Hout); [|done..].
      split; [done|]. split; [done|]. split; [done|]. split.
      * intros k' c1' Hk' HDk'. apply Hin; [|done].
        apply elem_of_cons in Hk' as [->|]; [congruence|done].
      * intros k' Hk'. apply Hout. destruct Hk'; [left; set_solver|by right].
Qed.

(** [mergeConfigs] with an override: the result is a new [Formats]
    object with the categories of the default, each merged with the
    category of the override by [mergeConfig]. *)
Lemma mergeConfigs_Some_spec (d c : loc) (h h' : Ref.Heap) (r : loc) :
  Ref.closed h → Ref.mergeConfigs d (Some c) h = (r, h') →
  Ref.extends h h' ∧ Ref.closed h'
  ∧ Ref.h_formats h !! r = None
  ∧ ∃ all, Ref.h_formats h' = <[r := all]> (Ref.h_formats h)
      ∧ ∀ k, match Ref.deref (Ref.h_formats h) d !! k with
             | Some c1 =>
                 ∃ l, all !! k = Some l
                      ∧ merged_category h h' c1 (Ref.deref (Ref.h_formats h) c !! k) l
             | None => all !! k = None
             end.
Proof.
  intros Hclosed Hmerge. unfold Ref.mergeConfigs in Hmerge.
  set (D := Ref.deref (Ref.h_formats h) d) in *.
  set (O := Ref.deref (Ref.h_formats h) c) in *.
  destruct (Ref.merge_categories D O (Js.keys D) (Js.copy D) h) as [all h1] eqn:Efold.
  destruct (Ref.alloc (Ref.h_formats h1) all) as [r' hf] eqn:Ealloc.
  injection Hmerge as [= <- <-].
  apply alloc_spec in Ealloc as [Hfresh ->].
  apply foldl_category_step in Efold as (Hext & Hclosed1 & Hfmt & Hin & Hout); [|done|..].
  2,3: intros k c0 Hk; by eapply closed_formats_fields.
  rewrite Hfmt in Hfresh |- *. destruct Hext as (Ho & Hc & _).
  split; [|split; [|split; [done|]]].
  - split; [done|]. split; [done|]. by apply insert_subseteq.
  - apply closed_spec in Hclosed1 as [Hc1 Hf1]. apply closed_spec. split; [exact Hc1|].
    intros l0 F k c0. cbn [Ref.h_formats Ref.h_categories]. intros Hl0 Hk.
    destruct (decide (r' = l0)) as [->|Hne].
    + rewrite lookup_insert_eq in Hl0. injection Hl0 as [= <-].
      destruct (D !! k) as [c1|] eqn:EDk.
      * destruct (Hin k c1) as (l & Hl & Hl' & _); [by apply elem_of_keys|done|].
        apply elem_of_dom. congruence.
      * rewrite Hout in Hk by (by right). unfold Js.copy in Hk. congruence.
    + rewrite lookup_insert_ne in Hl0 by done.
      eapply Hf1; [|done]. by rewrite Hfmt.
  - exists all. split; [done|]. intros k. destruct (D !! k) as [c1|] eqn:EDk.
    + destruct (Hin k c1) as (l & Hl & Hm); [by apply elem_of_keys|done|].
      by exists l.
    + rewrite Hout by (by right). done.
Qed.

(** The merger on objects computes the merger on values. *)
Lemma mergeConfigs_refines (d : loc) (oc : option loc) (h h' : Ref.Heap) (r : loc) :
  Ref.closed h → Ref.mergeConfigs d oc h = (r, h') →
  Ref.read_formats h' r
  = mergeConfigs (Ref.read_formats h d) (Ref.read_formats h <$> oc).
Proof.
  intros Hclosed Hmerge. destruct oc as [c|]; [|by injection Hmerge as [= <- <-]].
  destruct (mergeConfigs_Some_spec _ _ _ _ _ Hclosed Hmerge)
    as (_ & _ & _ & all & Hfmt & Hall).
  change (Ref.read_formats h <$> Some c) with (Some (Ref.read_formats h c)).
  apply map_eq. intros k.
  rewrite lookup_mergeConfigs_Some, !lookup_read_formats, Hfmt, deref_insert_eq.
  specialize (Hall k). destruct (Ref.deref (Ref.h_formats h) d !! k) as [c1|].
  - destruct Hall as (l & -> & _ & Hread & _). cbn. by rewrite Hread.
  - by rewrite Hall.
Qed.

Lemma read_formats_extends (h h' : Ref.Heap) (d : loc) :
  Ref.closed h → Ref.extends h h' → is_Some (Ref.h_formats h !! d) →
  Ref.read_formats h' d = Ref.read_formats h d.
Proof.
  intros Hclosed Hext Hd. unfold Ref.read_formats.
  rewrite (deref_weaken (Ref.h_formats h)); [|apply Hext|done].
  apply map_eq. intros k. rewrite !lookup_fmap.
  destruct (Ref.deref (Ref.h_formats h) d !! k) as [c|] eqn:E; [|done]. cbn. f_equal.
  apply read_category_extends; [done..|]. by eapply closed_formats_fields.
Qed.

(** Merging the result of a merge with the same override object again
    yields an object of the same value. *)
Lemma mergeConfigs_objects_idempotent (d : loc) (oc : option loc) (h h1 h2 : Ref.Heap)
    (r1 r2 : loc) :
  Ref.closed h → (∀ c, oc = Some c → is_Some (Ref.h_formats h !! c)) →
  Ref.mergeConfigs d oc h = (r1, h1) → Ref.mergeConfigs r1 oc h1 = (r2, h2) →
  Ref.read_formats h2 r2 = Ref.read_formats h1 r1.
Proof.
  intros Hclosed Hoc Hm1 Hm2. destruct oc as [c|]; [|by injection Hm2 as [= <- <-]].
  destruct (mergeConfigs_Some_spec _ _ _ _ _ Hclosed Hm1) as (Hext & Hclosed1 & _).
  rewrite (mergeConfigs_refines _ _ _ _ _ Hclosed1 Hm2).
  rewrite (mergeConfigs_refines _ _ _ _ _ Hclosed Hm1).
  cbn [fmap option_fmap option_map].
  rewrite (read_formats_extends h h1 c Hclosed Hext (Hoc c eq_refl)).
  apply map_eq. intros k. rewrite !lookup_mergeConfigs.
  destruct (Ref.read_formats h d !! k) as [c1|]; [|done].
  cbn. by rewrite mergeConfig_idemp.
Qed.

End ref_facts.

(** ** Instances and the static default configuration *)

Section isolation.
Context `{Memo.Host}.

(** The default value of the parameter [locales] leaves the heap and the
    static [formats] as they are. *)
Lemma locales_default_frame (locales : option Locales) (w : World) :
  let w0 := (match locales with
             | Some l => (l, w)
             | None => let '(l, w') := defaultLocale w in (LocaleTag l, w')
             end).2 in
  heap w0 = heap w ∧ Static.formats (statics w0) = Static.formats (statics w).
Proof.
  destruct locales as [l|]; [done|]. unfold defaultLocale.
  destruct (Static.memoizedDefaultLocale (statics w)) as [l|]; [|done].
  by destruct (Js.truthy_string l).
Qed.

(** The [formats] of a new instance is what [mergeConfigs] returns for
    the static default and the override. *)
Lemma constructor_merges (msg : Message) (locales : option Locales) (ov : option loc)
    (opts : option Options.t) (w w1 : World) (this : IntlMessageFormat) :
  new_IntlMessageFormat msg locales ov opts w = (inr this, w1) →
  Ref.mergeConfigs (Static.formats (statics w)) ov (heap w) = (formats this, heap w1).
Proof.
  unfold new_IntlMessageFormat.
  pose proof (locales_default_frame locales w) as Hframe.
  destruct (match locales with
            | Some l => (l, w)
            | None => let '(l, w') := defaultLocale w in (LocaleTag l, w')
            end) as [L w0].
  cbn [snd] in Hframe. destruct Hframe as [Hheap Hfmt].
  destruct (parse_message msg opts w0) as [e|[m [els|]]]; [done| |done].
  rewrite Hheap, Hfmt. destruct (Ref.mergeConfigs _ _ _) as [f h].
  by intros [= <- <-].
Qed.

Lemma not_shared_category_spec (D O : gmap string loc) (l : loc) :
  Ref.not_shared_category D O l ↔ ∀ k, D !! k = Some l → is_Some (O !! k).
Proof.
  unfold Ref.not_shared_category, map_Forall. split.
  - intros Hns k Hk. destruct (O !! k) eqn:E; [by eexists|]. by destruct (Hns k l Hk E).
  - intros Hns k c1 Hk Hnone ->. destruct (Hns k Hk) as [? ?]. congruence.
Qed.

Lemma read_category_write_category_ne (h : Ref.Heap) (l l' : loc) (p : string) (o : loc) :
  l' ≠ l → Ref.read_category (Ref.write_category l p o h) l' = Ref.read_category h l'.
Proof.
  intros Hne. unfold Ref.read_category, Ref.write_category, Ref.deref.
  cbn [Ref.h_categories]. by rewrite lookup_insert_ne.
Qed.

Lemma read_options_write_options_ne (h : Ref.Heap) (l l' : loc) (f : string)
    (v : OptionValue) :
  l' ≠ l → Ref.read_options (Ref.write_options l f v h) l' = Ref.read_options h l'.
Proof.
  intros Hne. unfold Ref.read_options, Ref.write_options, Ref.deref.
  cbn [Ref.h_options]. by rewrite lookup_insert_ne.
Qed.

(** Writing to an object that existed before an instance was constructed
    with an override, and that the merge does not share, leaves the
    configuration of the instance as it is. *)
Lemma merged_formats_frame (d c : loc) (h h1 : Ref.Heap) (r : loc) :
  Ref.closed h → Ref.mergeConfigs d (Some c) h = (r, h1) →
  let D := Ref.deref (Ref.h_formats h) d in
  let O := Ref.deref (Ref.h_formats h) c in
  (∀ l k c', is_Some (Ref.h_formats h !! l) →
     Ref.read_formats (Ref.write_formats l k c' h1) r = Ref.read_formats h1 r)
  ∧ (∀ l p o, is_Some (Ref.h_categories h !! l) → Ref.not_shared_category D O l →
       Ref.read_formats (Ref.write_category l p o h1) r = Ref.read_formats h1 r)
  ∧ (∀ l f v, is_Some (Ref.h_options h !! l) →
       Ref.not_shared_record (Ref.h_categories h) D O l →
       Ref.read_formats (Ref.write_options l f v h1) r = Ref.read_formats h1 r).
Proof.
  intros Hclosed Hmerge D O.
  destruct (mergeConfigs_Some_spec _ _ _ _ _ Hclosed Hmerge)
    as ((_ & Hcsub & _) & Hclosed1 & Hfresh & all & Hfmt & Hall).
  fold D O in Hall.
  split; [|split].
  - intros l k c' [F HF]. unfold Ref.read_formats, Ref.write_formats, Ref.deref.
    cbn [Ref.h_formats]. rewrite lookup_insert_ne by congruence. done.
  - intros l p o [obj Hobj] Hns.
    apply map_eq. intros k. rewrite !lookup_read_formats.
    change (Ref.h_formats (Ref.write_category l p o h1)) with (Ref.h_formats h1).
    rewrite Hfmt, deref_insert_eq.
    specialize (Hall k). destruct (D !! k) as [c1|] eqn:EDk; [|by rewrite Hall].
    destruct Hall as (l' & -> & Hl' & _ & Hshare). cbn. f_equal.
    assert (l' ≠ l) as Hne.
    { destruct (O !! k) as [c2|] eqn:EOk.
      - destruct Hshare as [Hnew _]. congruence.
      - subst l'. by apply (Hns k c1 EDk EOk). }
    by apply read_category_write_category_ne.
  - intros l f v [rec Hrec] Hns.
    apply map_eq. intros k. rewrite !lookup_read_formats.
    change (Ref.h_formats (Ref.write_options l f v h1)) with (Ref.h_formats h1).
    rewrite Hfmt, deref_insert_eq.
    specialize (Hall k). destruct (D !! k) as [c1|] eqn:EDk; [|by rewrite Hall].
    destruct Hall as (l' & -> & Hl' & _ & Hshare). cbn. f_equal.
    apply map_eq. intros p. rewrite !lookup_read_category.
    change (Ref.h_categories (Ref.write_options l f v h1)) with (Ref.h_categories h1).
    destruct (Ref.deref (Ref.h_categories h1) l' !! p) as [ro|] eqn:Ero; [|done].
    cbn. f_equal. apply read_options_write_options_ne. intros ->.
    specialize (Hns k c1 EDk). cbn beta in Hns.
    destruct (O !! k) as [c2|] eqn:EOk.
    + destruct Hshare as [_ Hfields].
      destruct (Hfields p l Ero) as [Hnew|[Hno1 Hin2]]; [congruence|].
      by apply (Hns p l Hin2 Hno1).
    + subst l'.
      assert (is_Some (Ref.h_categories h !! c1)) as Hc1.
      { eapply closed_formats_fields; [done|]. exact EDk. }
      rewrite (deref_weaken _ _ c1 Hcsub Hc1) in Ero. by apply (Hns p l Ero).
Qed.

(** C7, as stated, fails: an instance constructed without an override
    holds the static default configuration object itself, and the assignment
    [IntlMessageFormat.formats.number.currency.style = 'decimal'] after the
    construction changes the configuration of the instance. *)
Lemma default_mutation_reaches_instance :
  let '(r, w1) :=
    @new_IntlMessageFormat example_host (MessageValue (AstArray []))
      (Some (LocaleTag "en")) None None (initial_world None) in
  match r with
  | inl _ => False
  | inr this =>
      let w2 := assign_default_option "number" "currency" "style" (OStr "decimal") w1 in
      formats this = Static.formats (statics w1)
      ∧ currency_style (effective_formats w1 this) = Some (OStr "currency")
      ∧ currency_style (effective_formats w2 this) = Some (OStr "decimal")
  end.
Proof. vm_compute. repeat split; reflexivity. Qed.

(** C7, amended.  Assigning another object to the static [formats]
    never changes the configuration of an existing instance.  Mutating
    in place is another matter: an instance constructed without an
    override holds the default configuration object itself.  An instance
    constructed with an override has a configuration of its own in as far
    as the merge copies: writing to a field of any [Formats] object of
    before the construction, of any category object that is not a category
    of the default that the override lacks, or of any options record that
    belongs neither to such a category nor to a preset that only the
    override has, leaves the configuration of the instance unchanged. *)
Theorem instance_formats_isolation (msg : Message) (locales : option Locales)
    (ov : option loc) (opts : option Options.t) (w w1 : World)
    (this : IntlMessageFormat) :
  Ref.closed (heap w) →
  new_IntlMessageFormat msg locales ov opts w = (inr this, w1) →
  (∀ l, effective_formats (set_formats l w1) this = effective_formats w1 this)
  ∧ (ov = None → formats this = Static.formats (statics w) ∧ heap w1 = heap w)
  ∧ ∀ c, ov = Some c →
      let D := Ref.deref (Ref.h_formats (heap w)) (Static.formats (statics w)) in
      let O := Ref.deref (Ref.h_formats (heap w)) c in
      (∀ l k c', is_Some (Ref.h_formats (heap w) !! l) →
         effective_formats (set_heap (Ref.write_formats l k c' (heap w1)) w1) this
         = effective_formats w1 this)
      ∧ (∀ l p o, is_Some (Ref.h_categories (heap w) !! l) →
           Ref.not_shared_category D O l →
           effective_formats (set_heap (Ref.write_category l p o (heap w1)) w1) this
           = effective_formats w1 this)
      ∧ (∀ l f v, is_Some (Ref.h_options (heap w) !! l) →
           Ref.not_shared_record (Ref.h_categories (heap w)) D O l →
           effective_formats (set_heap (Ref.write_options l f v (heap w1)) w1) this
           = effective_formats w1 this).
Proof.
  intros Hclosed Hnew. apply constructor_merges in Hnew.
  split; [done|]. split.
  - intros ->. by injection Hnew as [= <- <-].
  - intros c ->. exact (merged_formats_frame _ _ _ _ _ Hclosed Hnew).
Qed.

End isolation.

(** ** Examples *)

(** The serializer of the example host maps different arguments to
    different keys. *)
Lemma example_host_serialize_inj : Inj (=) (=) (@Memo.serialize example_host).
Proof.
  intros a b Hab. cbn in Hab.
  apply (inj pretty) in Hab. by apply (inj encode) in Hab.
Qed.

(** C10 at the empty message. *)
Lemma format_no_parts_witness :
  @formatToParts _ _ literal_interpreter (initial_world None) empty_message None = inr []
  ∧ @format _ _ literal_interpreter (initial_world None) empty_message None
    = inr (FString "").
Proof.
  split; [reflexivity|].
  apply (@format_no_parts _ _ literal_interpreter). reflexivity.
Defined.

(** C4 at a message of two literals. *)
Lemma format_coalesces_witness :
  @formatToParts _ _ literal_interpreter (initial_world None) two_literals None
  = inr [LiteralPart "a"; LiteralPart "b"]
  ∧ @format _ _ literal_interpreter (initial_world None) two_literals None
    = inr (FString "ab").
Proof.
  split; [reflexivity|].
  apply (@format_coalesces _ _ literal_interpreter (initial_world None) two_literals None
           [LiteralPart "a"; LiteralPart "b"]).
  reflexivity.
Defined.

(** C9 in the initial state without a parser. *)
Lemma constructor_parser_unset_witness :
  Static.__parse (statics (initial_world None)) = None
  ∧ (let '(r, w') :=
       @new_IntlMessageFormat example_host (MessageString "hi") None None None
         (initial_world None) in
     r = inl (TypeError
           "IntlMessageFormat.__parse must be set to process `message` of type `string`")
     ∧ heap w' = heap (initial_world None)).
Proof.
  split; [reflexivity|].
  apply (@constructor_parser_unset example_host "hi" None None None (initial_world None)).
  reflexivity.
Defined.

(** C8 at the empty message. *)
Lemma resolvedOptions_primary_locale_witness :
  @Memo.supportedLocalesOf example_host (locales empty_message) = inr ["en"]
  ∧ @resolvedOptions example_host empty_message = inr {| locale := Some "en" |}.
Proof.
  split; [reflexivity|].
  apply (@resolvedOptions_primary_locale example_host empty_message ["en"]).
  reflexivity.
Defined.



(** C7 at the instance constructed with the [usd] override: the
    assignment to the style of the default number preset [currency], the
    options record at location 1, does not reach it. *)
Lemma instance_formats_isolation_witness :
  Ref.closed (heap world_with_override.1)
  ∧ usd_construction = (inr usd_instance, usd_construction.2)
  ∧ effective_formats
      (set_heap (Ref.write_options 1 "style" (OStr "decimal") (heap usd_construction.2))
                usd_construction.2) usd_instance
    = effective_formats usd_construction.2 usd_instance.
Proof.
  assert (Ref.closed (heap world_with_override.1)) as Hclosed
    by (apply (bool_decide_unpack _); vm_compute; exact I).
  assert (usd_construction = (inr usd_instance, usd_construction.2)) as Hnew
    by (vm_compute; reflexivity).
  split; [exact Hclosed|]. split; [exact Hnew|].
  destruct (@instance_formats_isolation example_host (MessageValue (AstArray []))
              (Some (LocaleTag "en")) (Some world_with_override.2) None
              world_with_override.1 usd_construction.2 usd_instance Hclosed Hnew)
    as (_ & _ & Hcopy).
  destruct (Hcopy world_with_override.2 eq_refl) as (_ & _ & Hrecord).
  apply Hrecord.
  - apply (bool_decide_unpack _). vm_compute. exact I.
  - apply (bool_decide_unpack _). vm_compute. exact I.
Defined.

(** * Further properties *)

(** ** The merger on values *)

(** X1: in the merged configuration, an option of a preset that the
    defaults have is the override's value when the override sets that option
    of that preset, and the default's value otherwise; a preset that only
    the override has, in a category of the defaults, is the override's; a
    category the defaults lack is absent. *)
Theorem mergeConfigs_option (D O : Formats) (k p f : string) :
  option_of (mergeConfigs D (Some O)) k p f
  = match D !! k with
    | None => None
    | Some c1 =>
        match c1 !! p with
        | Some a =>
            match preset_of O k p with
            | Some b => match b !! f with Some v => Some v | None => a !! f end
            | None => a !! f
            end
        | None => option_of O k p f
        end
    end.
Proof.
  unfold option_of, preset_of. rewrite lookup_mergeConfigs_Some.
  destruct (D !! k) as [c1|]; [|done]. cbn [fmap option_fmap option_map].
  destruct (O !! k) as [c2|].
  - rewrite lookup_mergeConfig_Some. destruct (c1 !! p) as [a|]; [|done].
    rewrite lookup_spread. destruct (c2 !! p) as [b|]; [done|].
    cbv [Js.or_empty default from_option]. by rewrite lookup_empty.
  - cbn [mergeConfig]. by destruct (c1 !! p).
Qed.

Lemma mergeConfig_empty (c1 : Category) : mergeConfig c1 (Some ∅) = c1.
Proof.
  apply map_eq. intros p. rewrite lookup_mergeConfig_Some, lookup_empty.
  destruct (c1 !! p) as [a|]; [|done]. f_equal.
  cbv [Js.or_empty default from_option]. unfold Js.spread. by rewrite (left_id_L ∅ (∪)).
Qed.

(** X2: an override whose categories are all empty, the empty override
    included, changes no value: the merge equals the defaults. *)
Theorem mergeConfigs_without_presets (D O : Formats) :
  (∀ k c2, O !! k = Some c2 → c2 = ∅) → mergeConfigs D (Some O) = D.
Proof.
  intros Hempty. apply map_eq. intros k. rewrite lookup_mergeConfigs_Some.
  destruct (D !! k) as [c1|]; [|done]. cbn [fmap option_fmap option_map]. f_equal.
  destruct (O !! k) as [c2|] eqn:E; [|done].
  rewrite (Hempty k c2 E). apply mergeConfig_empty.
Qed.

(** X2 at the override [{number: {}}]. *)
Lemma mergeConfigs_without_presets_witness :
  (∀ k c2, empty_number_override !! k = Some c2 → c2 = ∅)
  ∧ mergeConfigs default_formats (Some empty_number_override) = default_formats.
Proof.
  assert (∀ k c2, empty_number_override !! k = Some c2 → c2 = ∅) as Hempty.
  { intros k c2. unfold empty_number_override.
    rewrite lookup_singleton_Some. by intros [_ <-]. }
  split; [exact Hempty|]. exact (mergeConfigs_without_presets _ _ Hempty).
Defined.

Lemma mergeConfig_assoc (c1 a b : Category) :
  mergeConfig (mergeConfig c1 (Some a)) (Some b)
  = mergeConfig c1 (Some (mergeConfig a (Some b))).
Proof.
  apply map_eq. intros p. rewrite !lookup_mergeConfig_Some.
  destruct (c1 !! p) as [x|]; [|done].
  f_equal. destruct (a !! p) as [y|]; cbv [Js.or_empty default from_option id].
  - unfold Js.spread. by rewrite (assoc_L (∪)).
  - unfold Js.spread. by rewrite (left_id_L ∅ (∪)).
Qed.

(** X3: merging one override and then another is merging the two
    overrides combined: per category the second merged into the first by
    [mergeConfig]. *)
Theorem mergeConfigs_compose (D O1 O2 : Formats) :
  mergeConfigs (mergeConfigs D (Some O1)) (Some O2)
  = mergeConfigs D (Some (combine_overrides O1 O2)).
Proof.
  apply map_eq. intros k. rewrite !lookup_mergeConfigs_Some.
  destruct (D !! k) as [c1|]; [|done]. cbn [fmap option_fmap option_map]. f_equal.
  unfold combine_overrides. rewrite lookup_union_with.
  destruct (O1 !! k) as [a|], (O2 !! k) as [b|]; cbn [union_with option_union_with];
    [|done..].
  apply mergeConfig_assoc.
Qed.

(** ** More on the merger on objects *)

Lemma foldl_preset_step_subseteq (o1 o2 : gmap string loc) (ks : list string)
    (all0 all : gmap string loc) (ho0 ho' : gmap loc OptionsRecord) :
  foldl (Ref.preset_step o1 o2) (all0, ho0) ks = (all, ho') → ho0 ⊆ ho'.
Proof.
  revert all0 ho0. induction ks as [|k ks IH]; intros all0 ho0 Hfold.
  - by injection Hfold as [= <- <-].
  - cbn [foldl] in Hfold. unfold Ref.preset_step at 2 in Hfold.
    destruct (Ref.alloc ho0 _) as [l1 ho1] eqn:Ealloc.
    apply alloc_spec in Ealloc as [Hfresh ->].
    apply IH in Hfold. etrans; [|exact Hfold]. by apply insert_subseteq.
Qed.

Lemma mergeConfig_extends (c1 : loc) (oc2 : option loc) (h h' : Ref.Heap) (l : loc) :
  Ref.mergeConfig c1 oc2 h = (l, h') →
  Ref.extends h h' ∧ Ref.h_formats h' = Ref.h_formats h.
Proof.
  destruct oc2 as [c2|]; cbn [Ref.mergeConfig].
  - destruct (Ref.merge_presets _ _ _ _) as [all ho] eqn:Epre.
    destruct (Ref.alloc (Ref.h_categories h) _) as [l' hc] eqn:Ealloc.
    intros [= <- <-]. apply alloc_spec in Ealloc as [Hfresh ->].
    apply foldl_preset_step_subseteq in Epre.
    split; [|done]. split; [done|]. split; [by apply insert_subseteq|done].
  - intros [= <- <-]. split; [apply extends_refl|done].
Qed.

Lemma foldl_category_step_extends (D O : gmap string loc) (ks : list string)
    (all0 all : gmap string loc) (h0 h' : Ref.Heap) :
  foldl (Ref.category_step D O) (all0, h0) ks = (all, h') →
  Ref.extends h0 h' ∧ Ref.h_formats h' = Ref.h_formats h0.
Proof.
  revert all0 h0. induction ks as [|k ks IH]; intros all0 h0 Hfold.
  - injection Hfold as [= <- <-]. split; [apply extends_refl|done].
  - cbn [foldl] in Hfold. unfold Ref.category_step at 2 in Hfold.
    destruct (D !! k) as [c1|]; [|by eauto].
    destruct (Ref.mergeConfig c1 (O !! k) h0) as [l1 h1] eqn:Emerge.
    apply mergeConfig_extends in Emerge as [Hext1 Hfmt1].
    apply IH in Hfold as [Hext Hfmt].
    split; [by eapply extends_trans|congruence].
Qed.

Lemma mergeConfigs_extends (d : loc) (oc : option loc) (h h' : Ref.Heap) (r : loc) :
  Ref.mergeConfigs d oc h = (r, h') → Ref.extends h h'.
Proof.
  intros Hmerge. destruct oc as [c|]; cbn [Ref.mergeConfigs] in Hmerge.
  - destruct (Ref.merge_categories _ _ _ _ _) as [all h1] eqn:Efold.
    destruct (Ref.alloc (Ref.h_formats h1) all) as [r' hf] eqn:Ealloc.
    injection Hmerge as [= <- <-]. apply alloc_spec in Ealloc as [Hfresh ->].
    apply foldl_category_step_extends in Efold as [(Ho & Hc & Hf) Hfmt].
    split; [done|]. split; [done|]. cbn [Ref.h_formats].
    etrans; [exact Hf|]. by apply insert_subseteq.
  - injection Hmerge as [= <- <-]. apply extends_refl.
Qed.

(** X4: [mergeConfigs] never writes to an object it was given, nor to any
    other object that exists: every object of the heap before the call is
    in the heap after it, with the same fields. *)
Theorem mergeConfigs_preserves_objects (d : loc) (oc : option loc) (h : Ref.Heap) :
  let '(r, h') := Ref.mergeConfigs d oc h in
  (∀ l o, Ref.h_options h !! l = Some o → Ref.h_options h' !! l = Some o)
  ∧ (∀ l c, Ref.h_categories h !! l = Some c → Ref.h_categories h' !! l = Some c)
  ∧ (∀ l F, Ref.h_formats h !! l = Some F → Ref.h_formats h' !! l = Some F).
Proof.
  destruct (Ref.mergeConfigs d oc h) as [r h'] eqn:Hmerge.
  apply mergeConfigs_extends in Hmerge as (Ho & Hc & Hf).
  split; [|split]; intros l x Hl; by eapply lookup_weaken.
Qed.

(** X5: with an override object, an empty one included, [mergeConfigs]
    returns an object that did not exist before: never the default object,
    never the override object, never an object some instance holds. *)
Theorem mergeConfigs_returns_new_object (d c : loc) (h : Ref.Heap) :
  let '(r, h') := Ref.mergeConfigs d (Some c) h in
  Ref.h_formats h !! r = None ∧ is_Some (Ref.h_formats h' !! r)
  ∧ dom (Ref.deref (Ref.h_formats h') r) = dom (Ref.deref (Ref.h_formats h) d).
Proof.
  cbn [Ref.mergeConfigs].
  destruct (Ref.merge_categories _ _ _ _ _) as [all h1] eqn:Efold.
  destruct (Ref.alloc (Ref.h_formats h1) all) as [r' hf] eqn:Ealloc.
  apply alloc_spec in Ealloc as [Hfresh ->].
  pose proof Efold as [_ Hfmt]%foldl_category_step_extends.
  rewrite Hfmt in Hfresh. cbn [Ref.h_formats].
  split; [done|]. split; [by rewrite lookup_insert_eq|].
  rewrite deref_insert_eq.
  set (D := Ref.deref (Ref.h_formats h) d) in *.
  assert (∀ ks all0 h0 all' h0',
    foldl (Ref.category_step D (Ref.deref (Ref.h_formats h) c)) (all0, h0) ks = (all', h0') →
    (∀ k, k ∈ ks → is_Some (D !! k)) → dom all' = dom all0 ∪ list_to_set ks) as Hdom.
  { clear. intros ks. induction ks as [|k ks IH]; intros all0 h0 all' h0' Hfold Hks.
    - injection Hfold as [= <- <-]. set_solver.
    - cbn [foldl] in Hfold. unfold Ref.category_step at 2 in Hfold.
      destruct (Hks k) as [c1 Hc1]; [set_solver|]. rewrite Hc1 in Hfold.
      destruct (Ref.mergeConfig c1 _ h0) as [l1 h1].
      apply IH in Hfold; [|set_solver]. rewrite Hfold, dom_insert_L. set_solver. }
  unfold Ref.merge_categories in Efold. apply Hdom in Efold.
  - rewrite Efold. unfold Js.copy. apply set_eq. intros k.
    rewrite elem_of_union, elem_of_list_to_set, elem_of_keys, elem_of_dom. tauto.
  - intros k. apply elem_of_keys.
Qed.

(** X6: on a heap without dangling references [mergeConfigs] keeps the
    heap without dangling references, leaves the value of every existing
    configuration as it was, and returns an object whose value is the merge
    of the values of its arguments, however the arguments share objects. *)
Theorem mergeConfigs_value (d : loc) (oc : option loc) (h h' : Ref.Heap) (r : loc) :
  Ref.closed h → Ref.mergeConfigs d oc h = (r, h') →
  Ref.closed h'
  ∧ Ref.read_formats h' r
    = mergeConfigs (Ref.read_formats h d) (Ref.read_formats h <$> oc)
  ∧ ∀ l, is_Some (Ref.h_formats h !! l) → Ref.read_formats h' l = Ref.read_formats h l.
Proof.
  intros Hclosed Hmerge.
  split; [|split; [by apply mergeConfigs_refines|]].
  - destruct oc as [c|]; [|by injection Hmerge as [= <- <-]].
    by destruct (mergeConfigs_Some_spec _ _ _ _ _ Hclosed Hmerge) as (_ & ? & _).
  - intros l Hl. apply read_formats_extends; [done| |done].
    destruct oc as [c|]; [|injection Hmerge as [= <- <-]; apply extends_refl].
    by destruct (mergeConfigs_Some_spec _ _ _ _ _ Hclosed Hmerge) as (? & _).
Qed.

(** X6 at the construction with the [usd] override. *)
Lemma mergeConfigs_value_witness :
  Ref.closed (heap world_with_override.1)
  ∧ Ref.read_formats (heap usd_construction.2) (formats usd_instance)
    = mergeConfigs default_formats (Some usd_override).
Proof.
  assert (Ref.closed (heap world_with_override.1)) as Hclosed
    by (apply (bool_decide_unpack _); vm_compute; exact I).
  split; [exact Hclosed|].
  destruct (mergeConfigs_value 1 (Some world_with_override.2) (heap world_with_override.1)
              (heap usd_construction.2) (formats usd_instance) Hclosed)
    as (_ & Hvalue & _); [vm_compute; reflexivity|].
  rewrite Hvalue. vm_compute. reflexivity.
Defined.

(** The calls of [mergeConfig] that the [reduce] of [mergeConfigs] makes:
    one for every key of the default, in a heap that extends the initial
    one and is extended by the final one. *)
Lemma foldl_category_step_calls (D O : gmap string loc) (ks : list string)
    (all0 all : gmap string loc) (h0 h' : Ref.Heap) :
  foldl (Ref.category_step D O) (all0, h0) ks = (all, h') →
  Ref.closed h0 →
  (∀ k c, D !! k = Some c → is_Some (Ref.h_categories h0 !! c)) →
  (∀ k c, O !! k = Some c → is_Some (Ref.h_categories h0 !! c)) →
  ∀ k c1, k ∈ ks → D !! k = Some c1 →
    ∃ l hi hi', Ref.closed hi ∧ Ref.extends h0 hi
                ∧ Ref.mergeConfig c1 (O !! k) hi = (l, hi')
                ∧ Ref.extends hi' h' ∧ all !! k = Some l.
Proof.
  revert all0 h0. induction ks as [|k ks IH]; intros all0 h0 Hfold Hclosed HD HO k' c1' Hk' HDk'.
  { by apply elem_of_nil in Hk'. }
  cbn [foldl] in Hfold. unfold Ref.category_step at 2 in Hfold.
  destruct (D !! k) as [c1|] eqn:EDk.
  - destruct (Ref.mergeConfig c1 (O !! k) h0) as [l1 h1] eqn:Emerge.
    pose proof Emerge as (Hext1 & Hclosed1 & _)%mergeConfig_spec; [|done|by eauto].
    assert (∀ k c, D !! k = Some c → is_Some (Ref.h_categories h1 !! c)) as HD1.
    { intros k0 c0 Hk0. eapply lookup_weaken_is_Some; [by eauto|apply Hext1]. }
    assert (∀ k c, O !! k = Some c → is_Some (Ref.h_categories h1 !! c)) as HO1.
    { intros k0 c0 Hk0. eapply lookup_weaken_is_Some; [by eauto|apply Hext1]. }
    destruct (decide (k' ∈ ks)) as [Hks|Hks].
    + destruct (IH _ _ Hfold Hclosed1 HD1 HO1 k' c1' Hks HDk')
        as (l & hi & hi' & ? & ? & ? & ? & ?).
      exists l, hi, hi'. split; [done|]. split; [by eapply extends_trans|done].
    + assert (k' = k) as -> by set_solver.
      assert (c1' = c1) as -> by congruence.
      exists l1, h0, h1. split; [done|]. split; [apply extends_refl|]. split; [done|].
      pose proof Hfold as Hfold'.
      apply foldl_category_step in Hfold' as (Hext & _ & _ & _ & Hout); [|done..].
      split; [done|]. rewrite Hout by auto. apply lookup_insert_eq.
  - apply (IH _ _ Hfold Hclosed HD HO); [|done].
    apply elem_of_cons in Hk' as [->|]; [congruence|done].
Qed.

(** X7: what the merged configuration shares with its arguments.  A
    category of the default that the override lacks is in the result the
    very category object of the default; and in a category both have, a
    preset that only the override has is the very options record of the
    override.  A later write to such an object shows in the result. *)
Theorem mergeConfigs_shares (d c : loc) (h h' : Ref.Heap) (r : loc) :
  Ref.closed h → Ref.mergeConfigs d (Some c) h = (r, h') →
  let D := Ref.deref (Ref.h_formats h) d in
  let O := Ref.deref (Ref.h_formats h) c in
  let R := Ref.deref (Ref.h_formats h') r in
  (∀ k c1, D !! k = Some c1 → O !! k = None → R !! k = Some c1)
  ∧ (∀ k c1 c2 p ro, D !! k = Some c1 → O !! k = Some c2 →
       Ref.deref (Ref.h_categories h) c1 !! p = None →
       Ref.deref (Ref.h_categories h) c2 !! p = Some ro →
       ∃ rc, R !! k = Some rc ∧ Ref.deref (Ref.h_categories h') rc !! p = Some ro).
Proof.
  intros Hclosed Hmerge D O R. subst R.
  destruct (mergeConfigs_Some_spec _ _ _ _ _ Hclosed Hmerge)
    as (_ & _ & _ & all & Hfmt & Hall).
  fold D O in Hall. rewrite Hfmt, deref_insert_eq. split.
  - intros k c1 HDk HOk. specialize (Hall k). rewrite HDk, HOk in Hall.
    by destruct Hall as (l & Hl & _ & _ & ->).
  - intros k c1 c2 p ro HDk HOk Hno1 Hin2.
    cbn [Ref.mergeConfigs] in Hmerge. fold D O in Hmerge.
    destruct (Ref.merge_categories D O (Js.keys D) (Js.copy D) h) as [all' h1] eqn:Efold.
    destruct (Ref.alloc (Ref.h_formats h1) all') as [r' hf] eqn:Ealloc.
    injection Hmerge as [= <- <-]. apply alloc_spec in Ealloc as [Hfresh Hhf].
    assert (all' = all) as ->.
    { cbn [Ref.h_formats] in Hfmt. rewrite Hhf in Hfmt.
      apply (f_equal (.!! r')) in Hfmt. rewrite !lookup_insert_eq in Hfmt. congruence. }
    destruct (foldl_category_step_calls D O _ _ _ _ _ Efold Hclosed) with (k := k) (c1 := c1)
      as (l & hi & hi' & Hclosedi & Hexti & Hcall & Hexti' & Hl).
    { intros k0 c0 Hk0. by eapply closed_formats_fields. }
    { intros k0 c0 Hk0. by eapply closed_formats_fields. }
    { apply elem_of_keys. by rewrite HDk. }
    { done. }
    exists l. split; [done|]. cbn [Ref.h_categories].
    rewrite HOk in Hcall.
    destruct (mergeConfig_Some_spec _ _ _ _ _ Hclosedi Hcall)
      as (_ & _ & _ & obj & Hcats & Hobj).
    assert (is_Some (Ref.h_categories h !! c1)) as Hc1
      by (by eapply closed_formats_fields).
    assert (is_Some (Ref.h_categories h !! c2)) as Hc2
      by (by eapply closed_formats_fields).
    destruct Hexti as (_ & Hci & _). destruct Hexti' as (_ & Hci' & _).
    specialize (Hobj p).
    rewrite (deref_weaken _ _ c1 Hci Hc1), Hno1 in Hobj.
    rewrite (deref_weaken _ _ c2 Hci Hc2), Hin2 in Hobj.
    rewrite (deref_weaken (Ref.h_categories hi') _ l Hci').
    + by rewrite Hcats, deref_insert_eq.
    + rewrite Hcats, lookup_insert_eq. by eexists.
Qed.

(** X7 at the construction with the [usd] override: the category [date]
    of the instance is the category object of the default. *)
Lemma mergeConfigs_shares_witness :
  Ref.closed (heap world_with_override.1)
  ∧ Ref.deref (Ref.h_formats (heap usd_construction.2)) (formats usd_instance) !! "date"
    = Ref.deref (Ref.h_formats (heap world_with_override.1)) 1 !! "date".
Proof.
  assert (Ref.closed (heap world_with_override.1)) as Hclosed
    by (apply (bool_decide_unpack _); vm_compute; exact I).
  split; [exact Hclosed|].
  destruct (mergeConfigs_shares 1 world_with_override.2 (heap world_with_override.1)
              (heap usd_construction.2) (formats usd_instance) Hclosed)
    as [Hcat _]; [vm_compute; reflexivity|].
  apply (Hcat "date" 3%positive); vm_compute; reflexivity.
Defined.

(** ** The facade *)

Section facade_extras.
Context `{Memo.Host}.

Lemma truthy_string_spec (s : string) : Js.truthy_string s = true ↔ s ≠ "".
Proof.
  unfold Js.truthy_string. destruct (String.eqb_spec s "") as [->|Hne]; cbn; naive_solver.
Qed.

(** X10: the getter [defaultLocale] memoizes.  After a read the static
    [memoizedDefaultLocale] holds the locale returned, and a later read
    returns the same locale and changes nothing; a non-empty memoized
    locale is returned as it is, whatever the host's locale; only the
    static [memoizedDefaultLocale] is ever written. *)
Theorem defaultLocale_memoized (w : World) :
  let '(l, w1) := defaultLocale w in
  Static.memoizedDefaultLocale (statics w1) = Some l
  ∧ defaultLocale w1 = (l, w1)
  ∧ (∀ m, Static.memoizedDefaultLocale (statics w) = Some m → m ≠ "" → l = m ∧ w1 = w)
  ∧ (Static.memoizedDefaultLocale (statics w) = None → l = Memo.host_locale)
  ∧ heap w1 = heap w
  ∧ Static.__parse (statics w1) = Static.__parse (statics w)
  ∧ Static.formats (statics w1) = Static.formats (statics w).
Proof.
  destruct (defaultLocale w) as [l w1] eqn:Hget. unfold defaultLocale in Hget.
  destruct (Static.memoizedDefaultLocale (statics w)) as [m|] eqn:Em.
  - destruct (Js.truthy_string m) eqn:Et.
    + injection Hget as [= <- <-]. split; [done|]. split.
      { unfold defaultLocale. by rewrite Em, Et. }
      split; [by intros m' [= <-]|]. by split.
    + injection Hget as [= <- <-]. split; [done|]. split.
      { unfold defaultLocale. cbn. by destruct (Js.truthy_string Memo.host_locale). }
      split; [|by split].
      intros m' [= <-] Hne. apply truthy_string_spec in Hne. congruence.
  - injection Hget as [= <- <-]. split; [done|]. split.
    { unfold defaultLocale. cbn. by destruct (Js.truthy_string Memo.host_locale). }
    split; [done|]. by split.
Qed.

(** X9: what the constructor leaves alone.  It never assigns to the static
    [__parse] or [formats]; it never writes to an existing configuration
    object; when it throws it has allocated nothing; and with a [locales]
    argument it does not touch [memoizedDefaultLocale]. *)
Theorem constructor_frame (msg : Message) (locales : option Locales)
    (ov : option loc) (opts : option Options.t) (w : World) :
  let '(r, w1) := new_IntlMessageFormat msg locales ov opts w in
  Static.__parse (statics w1) = Static.__parse (statics w)
  ∧ Static.formats (statics w1) = Static.formats (statics w)
  ∧ (∀ l o, Ref.h_options (heap w) !! l = Some o → Ref.h_options (heap w1) !! l = Some o)
  ∧ (∀ l c, Ref.h_categories (heap w) !! l = Some c →
            Ref.h_categories (heap w1) !! l = Some c)
  ∧ (∀ l F, Ref.h_formats (heap w) !! l = Some F → Ref.h_formats (heap w1) !! l = Some F)
  ∧ (∀ e, r = inl e → heap w1 = heap w)
  ∧ (is_Some locales →
     Static.memoizedDefaultLocale (statics w1) = Static.memoizedDefaultLocale (statics w)).
Proof.
  unfold new_IntlMessageFormat.
  pose proof (locales_default_frame locales w) as Hframe.
  pose proof (new_IntlMessageFormat_parse_world locales w) as Hparse.
  assert (is_Some locales →
          Static.memoizedDefaultLocale
            (statics (match locales with
                      | Some l => (l, w)
                      | None => let '(l, w') := defaultLocale w in (LocaleTag l, w')
                      end).2)
          = Static.memoizedDefaultLocale (statics w)) as Hmemo.
  { by intros [l ->]. }
  destruct (match locales with
            | Some l => (l, w)
            | None => let '(l, w') := defaultLocale w in (LocaleTag l, w')
            end) as [L w0].
  cbn [snd] in Hframe, Hparse, Hmemo. destruct Hframe as [Hheap Hfmt].
  destruct (parse_message msg opts w0) as [e|[m [els|]]].
  - rewrite Hheap. by repeat split.
  - destruct (Ref.mergeConfigs _ _ _) as [f h] eqn:Emerge.
    rewrite Hheap in Emerge.
    apply mergeConfigs_extends in Emerge as (Ho & Hc & Hf).
    repeat split; try done; intros l x Hl; by eapply lookup_weaken.
  - rewrite Hheap. by repeat split.
Qed.

(** X8: the configuration a new instance formats with is the merge of the
    value the static default has at the time of the construction with the
    value of the override. *)
Theorem constructor_effective_formats (msg : Message) (locales : option Locales)
    (ov : option loc) (opts : option Options.t) (w w1 : World)
    (this : IntlMessageFormat) :
  Ref.closed (heap w) →
  new_IntlMessageFormat msg locales ov opts w = (inr this, w1) →
  effective_formats w1 this
  = mergeConfigs (Ref.read_formats (heap w) (Static.formats (statics w)))
                 (Ref.read_formats (heap w) <$> ov)
  ∧ Ref.closed (heap w1).
Proof.
  intros Hclosed Hnew. apply constructor_merges in Hnew.
  split; [by apply mergeConfigs_refines|].
  destruct ov as [c|]; [|by injection Hnew as [= _ <-]].
  by destruct (mergeConfigs_Some_spec _ _ _ _ _ Hclosed Hnew) as (_ & ? & _).
Qed.

End facade_extras.

Section format_extras.
Context `{Memo.Host} {T Values : Type} `{!Interpreter T Values}.

(** X11: when [formatToParts] yields two or more parts of which no
    literal part comes directly after a part with a string value (a
    literal part, or an object part whose value is a string), as an
    interpreter that merges its strings does, [format] returns exactly
    the values of the parts, in order. *)
Theorem format_precoalesced (w : World) (this : IntlMessageFormat)
    (values : option Values) (parts : list (MessageFormatPart T)) :
  formatToParts w this values = inr parts →
  no_literal_after_string parts → (2 ≤ length parts)%nat →
  format w this values = inr (FArray (part_value <$> parts)).
Proof.
  intros Hparts Hna Hlen. unfold format. rewrite Hparts. f_equal.
  rewrite format_parts_eq, (precoalesced_not_single parts Hna Hlen).
  rewrite coalesce_runs_precoalesced by done.
  by destruct parts as [|p [|q rest]]; [cbn in Hlen; lia..|].
Qed.

End format_extras.

(** X11 at a literal, a node and a literal. *)
Lemma format_precoalesced_witness :
  @formatToParts _ _ parts_interpreter (initial_world None) empty_message (Some bold_parts)
  = inr bold_parts
  ∧ @no_literal_after_string _ _ parts_interpreter bold_parts
  ∧ (2 ≤ length bold_parts)%nat
  ∧ @format _ _ parts_interpreter (initial_world None) empty_message (Some bold_parts)
    = inr (FArray [inl "a"; inr (RichNode 7); inl "b"]).
Proof.
  split; [reflexivity|]. split; [by split|]. split; [cbn; lia|].
  apply (@format_precoalesced _ _ parts_interpreter (initial_world None) empty_message
           (Some bold_parts) bold_parts); [reflexivity|by split|cbn; lia].
Defined.

(** X8 at the construction with the [usd] override. *)
Lemma constructor_effective_formats_witness :
  Ref.closed (heap world_with_override.1)
  ∧ usd_construction = (inr usd_instance, usd_construction.2)
  ∧ effective_formats usd_construction.2 usd_instance
    = mergeConfigs default_formats (Some usd_override).
Proof.
  assert (Ref.closed (heap world_with_override.1)) as Hclosed
    by (apply (bool_decide_unpack _); vm_compute; exact I).
  assert (usd_construction = (inr usd_instance, usd_construction.2)) as Hnew
    by (vm_compute; reflexivity).
  split; [exact Hclosed|]. split; [exact Hnew|].
  destruct (@constructor_effective_formats example_host _ _ _ _ _ _ _ Hclosed Hnew)
    as [Hvalue _].
  rewrite Hvalue. vm_compute. reflexivity.
Defined.

(** ** The formatter cache *)

(** X12: the store operations of [createFastMemoizeCache]: a key other
    than [__proto__] that was set is there and reads back the value set,
    and setting it changes no other key; [has] holds exactly for the keys
    [get] finds; and an empty store has the keys that [Object.prototype]
    provides, [toString] for one, and no others. *)
Theorem fast_memoize_cache_laws {V} (store : gmap string V) (key key' : string) (v : V) :
  let c := @Memo.createFastMemoizeCache V in
  (key ≠ "__proto__" →
   Memo.get c key (Memo.set c key v store) = Some (Memo.Own v)
   ∧ Memo.has c key (Memo.set c key v store) = true
   ∧ (key' ≠ key →
      Memo.get c key' (Memo.set c key v store) = Memo.get c key' store
      ∧ Memo.has c key' (Memo.set c key v store) = Memo.has c key' store))
  ∧ (Memo.has c key store = true ↔ is_Some (Memo.get c key store))
  ∧ (Memo.has c key (∅ : gmap string V) = true ↔ key ∈ Memo.Object_prototype)
  ∧ Memo.has c "toString" (∅ : gmap string V) = true
  ∧ Memo.get c "toString" (∅ : gmap string V) = Some (Memo.Inherited "toString").
Proof.
  cbn [Memo.get Memo.has Memo.set Memo.createFastMemoizeCache].
  split; [|split; [|split; [|split]]].
  - intros _. rewrite lookup_insert_eq. split; [done|]. split.
    + apply orb_true_iff. left. apply bool_decide_eq_true. by eexists.
    + intros Hne. by rewrite lookup_insert_ne.
  - rewrite orb_true_iff, bool_decide_eq_true.
    destruct (store !! key) as [v'|].
    + split; [by eauto|]. intros _. left. by eexists.
    + destruct (Memo.inherited key).
      * split; [by eauto|]. intros _. by right.
      * split; [|by intros [? ?]]. intros [[? ?]|?]; done.
  - rewrite lookup_empty, orb_true_iff, bool_decide_eq_true.
    unfold Memo.inherited. rewrite existsb_exists. split.
    + intros [[? ?]|(name & Hin & ->%String.eqb_eq)]; [done|].
      by apply list_elem_of_In.
    + intros Hin. right. exists key. split; [by apply list_elem_of_In|].
      apply String.eqb_refl.
  - reflexivity.
  - reflexivity.
Qed.

Section cache_extras.
Context `{Memo.Host}.
Import Memo.

(** X13: a call of a formatter factory leaves the stores of the other two
    kinds as they are, never removes or replaces a stored instance of its
    own kind, and constructs at most one object. *)
Theorem getter_frame (k : Kind) (a : Args) (st : State) :
  let '(r, st') := getter createDefaultFormatters k a st in
  (∀ k', k' ≠ k → store_of k' (cache st') = store_of k' (cache st))
  ∧ (∀ key o, stored st k key o → stored st' k key o)
  ∧ (next_id st' = next_id st ∨ next_id st' = Pos.succ (next_id st)).
Proof.
  pose proof (getter_spec k a st) as Hspec.
  destruct (getter createDefaultFormatters k a st) as [r st'].
  destruct (get createFastMemoizeCache (serialize a) (store_of k (cache st)))
    as [m|] eqn:Ehit.
  { destruct Hspec as [_ ->]. split; [done|]. split; [done|]. by left. }
  apply get_None in Ehit.
  destruct (intl_check k a) as [e|].
  { destruct Hspec as [_ ->]. split; [done|]. split; [done|]. by left. }
  cbv zeta in Hspec. destruct Hspec as (_ & Hnext & Hstore).
  split; [|split; [|by right]].
  - intros k' Hne. apply map_eq. intros key. rewrite Hstore.
    rewrite decide_False; [done|]. by intros [? _].
  - intros key o Hs. unfold stored in *. rewrite Hstore.
    rewrite decide_False; [done|]. intros [_ ->]. congruence.
Qed.

(** X14: a call that returned an instance, repeated at once with the same
    arguments, returns the same instance and changes nothing; a call whose
    construction threw has stored nothing and changed nothing, so the
    construction is tried again by the next call. *)
Theorem getter_repeat (k : Kind) (a : Args) (st : State) :
  let '(r, st') := getter createDefaultFormatters k a st in
  match r with
  | inr o => getter createDefaultFormatters k a st' = (inr o, st')
  | inl e => st' = st ∧ store_of k (cache st) !! serialize a = None
  end.
Proof.
  pose proof (getter_spec k a st) as Hspec.
  destruct (getter createDefaultFormatters k a st) as [r st'] eqn:Hget.
  destruct (get createFastMemoizeCache (serialize a) (store_of k (cache st)))
    as [m|] eqn:Ehit.
  { destruct Hspec as [-> ->]. exact Hget. }
  apply get_None in Ehit.
  destruct (intl_check k a) as [e|].
  { by destruct Hspec as [-> ->]. }
  cbv zeta in Hspec. destruct Hspec as (-> & Hnext & Hstore).
  pose proof (getter_spec k a st') as Hspec'.
  destruct (getter createDefaultFormatters k a st') as [r2 st2].
  set (o := {| obj_id := next_id st; obj_kind := k; obj_args := a |}) in *.
  assert (get createFastMemoizeCache (serialize a) (store_of k (cache st')) = Some (Own o))
    as Hhit by (apply get_Own; rewrite Hstore; by rewrite decide_True).
  rewrite Hhit in Hspec'. by destruct Hspec' as [-> ->].
Qed.

End cache_extras.

(** ** The locale-data script *)

Section cldr_facts.
Context `{Cldr.Env}.
Import Cldr.

(** The loop over a list that is two lists, one after the other. *)
Lemma dist_app (args : Args) (xs ys : list string) (fs : Files) :
  dist args (xs ++ ys) fs
  = match dist args xs fs with
    | (None, fs1) => dist args ys fs1
    | (Some e, fs1) => (Some e, fs1)
    end.
Proof.
  revert fs. induction xs as [|x xs IH]; intros fs; [done|].
  cbn [app dist]. destruct (fs !! source_of args x) as [data|]; [|done]. apply IH.
Qed.

(** A destination holds the data of the last locale [l'] of the list
    that has this destination: no locale after [l'] has it. *)
Lemma dist_complete (args : Args) (ls : list string) (fs : Files) :
  Forall (λ l, is_Some (fs !! source_of args l)) ls →
  Forall (λ l, Forall (λ l', dest_of args l ≠ source_of args l') ls) ls →
  ∃ fs', dist args ls fs = (None, fs')
    ∧ (∀ l, l ∈ ls →
         ∃ pre l' post data,
           ls = pre ++ l' :: post
           ∧ dest_of args l' = dest_of args l
           ∧ Forall (λ x, dest_of args x ≠ dest_of args l) post
           ∧ fs !! source_of args l' = Some data
           ∧ fs' !! dest_of args l = Some (generated data))
    ∧ (∀ path, Forall (λ l, dest_of args l ≠ path) ls → fs' !! path = fs !! path).
Proof.
  revert fs. induction ls as [|l0 rest IH]; intros fs Hsrc Hsep.
  { exists fs. split; [done|]. split; [|done]. intros l Hl. by apply elem_of_nil in Hl. }
  apply Forall_cons in Hsrc as [[data0 Hdata0] Hsrc].
  apply Forall_cons in Hsep as [Hsep0 Hsep].
  apply Forall_cons in Hsep0 as [Hsep00 Hsep0].
  set (fs1 := <[dest_of args l0 := generated data0]> fs).
  assert (∀ l, l ∈ rest → fs1 !! source_of args l = fs !! source_of args l) as Hkeep.
  { intros l Hl. apply lookup_insert_ne.
    rewrite Forall_forall in Hsep0. by apply Hsep0. }
  destruct (IH fs1) as (fs' & Hrun & Hwritten & Hframe).
  { rewrite Forall_forall in Hsrc |- *. intros l Hl. rewrite Hkeep by done. by apply Hsrc. }
  { rewrite Forall_forall in Hsep |- *. intros l Hl.
    specialize (Hsep l Hl). by apply Forall_cons in Hsep as [_ ?]. }
  exists fs'. split; [|split].
  - cbn [dist]. by rewrite Hdata0.
  - intros l Hl.
    assert (∀ l1, l1 ∈ rest →
      ∃ pre l' post data,
        l0 :: rest = pre ++ l' :: post
        ∧ dest_of args l' = dest_of args l1
        ∧ Forall (λ x, dest_of args x ≠ dest_of args l1) post
        ∧ fs !! source_of args l' = Some data
        ∧ fs' !! dest_of args l1 = Some (generated data)) as Hrest.
    { intros l1 Hl1.
      destruct (Hwritten l1 Hl1) as (pre & l' & post & data & Hsplit & Hd & Hpost & Hs & Hw).
      exists (l0 :: pre), l', post, data. rewrite <- Hkeep.
      - split; [by rewrite Hsplit|done].
      - rewrite Hsplit. set_solver. }
    destruct (decide (Exists (λ l1, dest_of args l1 = dest_of args l) rest)) as [Hex|Hnex].
    + apply Exists_exists in Hex as (l1 & Hl1 & Hd1).
      destruct (Hrest l1 Hl1) as (pre & l' & post & data & ? & ? & ? & ? & ?).
      exists pre, l', post, data. rewrite <- Hd1. done.
    + assert (Forall (λ x, dest_of args x ≠ dest_of args l) rest) as Hnone.
      { apply Forall_forall. intros l1 Hl1 Heq. apply Hnex, Exists_exists. by eauto. }
      apply elem_of_cons in Hl as [->|Hl].
      * exists [], l0, rest, data0. split; [done|]. split; [done|]. split; [done|].
        split; [done|]. rewrite (Hframe _ Hnone). apply lookup_insert_eq.
      * exfalso. apply Hnex, Exists_exists. by eauto.
  - intros path Hpath. apply Forall_cons in Hpath as [Hp0 Hp].
    rewrite (Hframe path Hp). by apply lookup_insert_ne.
Qed.

(** X15: a run in which every requested locale has its source file, and no
    destination is a source, throws nothing; every destination then holds
    the generated text of the data of the last requested locale with that
    destination (no locale requested after it has the destination), and
    every other file is as it was. *)
Theorem main_writes_every_locale (args : Args) (fs : Files) (ls : list string) :
  locales_to_generate args fs = inr ls →
  Forall (λ l, is_Some (fs !! source_of args l)) ls →
  Forall (λ l, Forall (λ l', dest_of args l ≠ source_of args l') ls) ls →
  ∃ fs', main args fs = (None, fs')
    ∧ (∀ l, l ∈ ls →
         ∃ pre l' post data,
           ls = pre ++ l' :: post
           ∧ dest_of args l' = dest_of args l
           ∧ Forall (λ x, dest_of args x ≠ dest_of args l) post
           ∧ fs !! source_of args l' = Some data
           ∧ fs' !! dest_of args l = Some (generated data))
    ∧ (∀ path, Forall (λ l, dest_of args l ≠ path) ls → fs' !! path = fs !! path).
Proof.
  intros Hls Hsrc Hsep. unfold main. rewrite Hls. by apply dist_complete.
Qed.

(** X16: a run that meets a requested locale without a source file throws
    [ENOENT] for that file at the first such locale; it has then written
    the files of the locales before it, exactly as a run for those locales
    alone, and nothing for the locales after it. *)
Theorem main_stops_at_missing_source (args : Args) (fs : Files)
    (before after : list string) (l : string) :
  locales_to_generate args fs = inr (before ++ l :: after) →
  Forall (λ x, is_Some (fs !! source_of args x)) before →
  fs !! source_of args l = None →
  Forall (λ x, Forall (λ y, dest_of args x ≠ source_of args y) (l :: before)) before →
  ∃ fs', dist args before fs = (None, fs')
    ∧ main args fs = (Some (ENOENT (source_of args l)), fs')
    ∧ (∀ path, Forall (λ x, dest_of args x ≠ path) before → fs' !! path = fs !! path).
Proof.
  intros Hls Hsrc Hmissing Hsep. unfold main. rewrite Hls, dist_app.
  destruct (dist_complete args before fs Hsrc) as (fs' & Hrun & _ & Hframe).
  { rewrite Forall_forall in Hsep |- *. intros x Hx.
    specialize (Hsep x Hx). by apply Forall_cons in Hsep as [_ ?]. }
  exists fs'. split; [done|]. split; [|done].
  rewrite Hrun. cbn [dist]. rewrite Hframe, Hmissing; [done|].
  rewrite Forall_forall in Hsep |- *. intros x Hx.
  specialize (Hsep x Hx). by apply Forall_cons in Hsep as [? _].
Qed.

End cldr_facts.

(** X15 at the locales [en,fr]. *)
Lemma main_writes_every_locale_witness :
  @Cldr.locales_to_generate example_env example_args example_files = inr ["en"; "fr"]
  ∧ ∃ fs', @Cldr.main example_env example_args example_files = (None, fs')
      ∧ (∀ l, l ∈ ["en"; "fr"] →
           ∃ pre l' post data,
             ["en"; "fr"] = pre ++ l' :: post
             ∧ @Cldr.dest_of example_env example_args l'
               = @Cldr.dest_of example_env example_args l
             ∧ Forall (λ x, @Cldr.dest_of example_env example_args x
                            ≠ @Cldr.dest_of example_env example_args l) post
             ∧ example_files !! @Cldr.source_of example_env example_args l' = Some data
             ∧ fs' !! @Cldr.dest_of example_env example_args l
               = Some (Cldr.generated data))
      ∧ (∀ path, Forall (λ l, @Cldr.dest_of example_env example_args l ≠ path) ["en"; "fr"] →
                 fs' !! path = example_files !! path).
Proof.
  split; [reflexivity|].
  apply (@main_writes_every_locale example_env example_args example_files ["en"; "fr"]).
  - reflexivity.
  - apply (bool_decide_unpack _). vm_compute. exact I.
  - apply (bool_decide_unpack _). vm_compute. exact I.
Defined.

(** X16 at the locales [en,de,fr] without data for [de]. *)
Lemma main_stops_at_missing_source_witness :
  @Cldr.locales_to_generate example_env example_args_missing example_files
  = inr (["en"] ++ "de" :: ["fr"])
  ∧ ∃ fs', @Cldr.main example_env example_args_missing example_files
           = (Some (Cldr.ENOENT "cldr/de.js"), fs').
Proof.
  split; [reflexivity|].
  destruct (@main_stops_at_missing_source example_env example_args_missing example_files
              ["en"] ["fr"] "de") as (fs' & _ & Hrun & _).
  - reflexivity.
  - apply (bool_decide_unpack _). vm_compute. exact I.
  - reflexivity.
  - apply (bool_decide_unpack _). vm_compute. exact I.
  - exists fs'. exact Hrun.
Defined.

(** ** The default locale of a construction *)

Section default_locale.
Context `{Memo.Host}.

Lemma defaultLocale_sets_memo (w : World) :
  Static.memoizedDefaultLocale (statics (defaultLocale w).2) = Some (defaultLocale w).1.
Proof.
  unfold defaultLocale.
  destruct (Static.memoizedDefaultLocale (statics w)) as [m|] eqn:Em; [|done].
  by destruct (Js.truthy_string m).
Qed.

(** X17: a construction without the argument [locales] reads the default
    locale before anything else: the new instance stores that locale, and
    the static [memoizedDefaultLocale] holds it afterwards, also when the
    constructor throws. *)
Theorem constructor_default_locale (msg : Message) (ov : option loc)
    (opts : option Options.t) (w : World) :
  let '(r, w1) := new_IntlMessageFormat msg None ov opts w in
  Static.memoizedDefaultLocale (statics w1) = Some (defaultLocale w).1
  ∧ match r with
    | inr this => locales this = LocaleTag (defaultLocale w).1
    | inl _ => True
    end.
Proof.
  unfold new_IntlMessageFormat.
  pose proof (defaultLocale_sets_memo w) as Hmemo.
  destruct (defaultLocale w) as [l w0]. cbn [fst snd] in Hmemo.
  destruct (parse_message msg opts w0) as [e|[m [els|]]]; [done| |done].
  by destruct (Ref.mergeConfigs _ _ _) as [f h].
Qed.

End default_locale.
